(** * simple-chatroom: frame codec, broadcast room and session write side

    A shallow embedding of [chat_message.hpp] and [chat_server.cpp].
    Machine integers are [Z] with the conversions written out, the
    message buffer is a list of characters, the room's participant set
    is a [gset] of session identities and the sessions themselves live
    in a heap ([gmap]) indexed by identity, because the room and the
    pending completion handlers share them through [shared_ptr]. *)

From Stdlib Require Import ZArith Ascii List Lia.
From stdpp Require Import base gmap sets list strings.

(** ** The C library functions the codec calls *)

Module CLib.

(** [isspace] in the "C" locale: space and the control characters 9..13. *)
Definition isspace (c : ascii) : bool :=
  let n := nat_of_ascii c in
  (n =? 32)%nat || ((9 <=? n)%nat && (n <=? 13)%nat).

Definition isdigit (c : ascii) : bool :=
  let n := nat_of_ascii c in
  (48 <=? n)%nat && (n <=? 57)%nat.

Definition digit_val (c : ascii) : Z := (Z.of_nat (nat_of_ascii c) - 48)%Z.

Definition digit_char (d : Z) : ascii := ascii_of_nat (Z.to_nat (d + 48)).

Fixpoint skip_spaces (s : list ascii) : list ascii :=
  match s with
  | c :: s' => if isspace c then skip_spaces s' else s
  | [] => []
  end.

(** The digit loop of [atoi]: accumulate while the next character is a
    decimal digit, stop at the first other character or at the end. *)
Fixpoint atoi_digits (acc : Z) (s : list ascii) : Z :=
  match s with
  | c :: s' => if isdigit c then atoi_digits (10 * acc + digit_val c)%Z s' else acc
  | [] => acc
  end.

(** [atoi] on a C string (given without its terminating NUL): leading
    white space, an optional sign, then digits.  The accumulator is
    unbounded here; the codec only calls it on at most four characters,
    where the value stays within [-999, 9999]. *)
Definition atoi (s : list ascii) : Z :=
  match skip_spaces s with
  | c :: s' =>
      if Ascii.eqb c "-"%char then (- atoi_digits 0 s')%Z
      else if Ascii.eqb c "+"%char then atoi_digits 0 s'
      else atoi_digits 0 (c :: s')
  | [] => 0%Z
  end.

(** The characters [strncat] appends: at most [n] characters of [src],
    stopping before the first NUL. *)
Fixpoint strn_chars (src : list ascii) (n : nat) : list ascii :=
  match n, src with
  | S n', c :: src' => if Ascii.eqb c Ascii.zero then [] else c :: strn_chars src' n'
  | _, _ => []
  end.

Definition strncat (dest src : list ascii) (n : nat) : list ascii :=
  dest ++ strn_chars src n.

(** Decimal digits of a non-negative number, most significant first.
    [fuel] bounds the number of digits produced. *)
Fixpoint utoa_aux (fuel : nat) (n : Z) (acc : list ascii) : list ascii :=
  match fuel with
  | O => acc
  | S fuel' =>
      let acc' := digit_char (n mod 10) :: acc in
      if (n / 10 =? 0)%Z then acc' else utoa_aux fuel' (n / 10) acc'
  end.

(** A number has no more decimal digits than binary ones. *)
Definition utoa (n : Z) : list ascii :=
  utoa_aux (S (Z.to_nat (Z.log2 n))) n [].

Definition itoa (v : Z) : list ascii :=
  if (v <? 0)%Z then "-"%char :: utoa (- v) else utoa v.

Definition pad_left (width : nat) (s : list ascii) : list ascii :=
  repeat " "%char (width - length s) ++ s.

(** The characters [sprintf(_, "%4d", v)] produces (without the NUL). *)
Definition sprintf_4d (v : Z) : list ascii := pad_left 4 (itoa v).

(** [memcpy(buf + off, src, n)] on a buffer held as a list; the callers
    keep [off + n] within the buffer. *)
Definition memcpy (buf : list ascii) (off : nat) (src : list ascii) (n : nat)
  : list ascii :=
  take off buf ++ take n src ++ drop (off + n) buf.

(** Conversions between [int] (32 bits, signed) and [size_t] (64 bits). *)
Definition to_size_t (v : Z) : Z := (v mod 2 ^ 64)%Z.
Definition to_int (v : Z) : Z := ((v + 2 ^ 31) mod 2 ^ 32 - 2 ^ 31)%Z.

(** What [utoa_aux] prepends to its accumulator: a non-empty run of
    digits that [atoi_digits] reads back as [n], of the minimal width. *)
Definition decimal_of (n : Z) (ds : list ascii) : Prop :=
  ds <> [] /\
  Forall (fun c => isdigit c = true) ds /\
  (forall a, atoi_digits a ds = a * 10 ^ Z.of_nat (List.length ds) + n)%Z /\
  (List.length ds = 1%nat \/ (10 ^ (Z.of_nat (List.length ds) - 1) <= n)%Z).

End CLib.

(** ** chat_message.hpp *)

Module ChatMessage.
Import CLib.

Definition header_length : nat := 4.
Definition max_body_length : Z := 512.

Record chat_message := Build_chat_message {
  data_ : list ascii;          (* char data_[header_length + max_body_length] *)
  body_length_ : Z             (* std::size_t body_length_ *)
}.

(** The buffer has its declared size. *)
Definition wf (m : chat_message) : Prop :=
  List.length (data_ m) = (header_length + Z.to_nat max_body_length)%nat.

Definition data (m : chat_message) : list ascii := data_ m.

Definition length (m : chat_message) : Z :=
  (Z.of_nat header_length + body_length_ m)%Z.

(** [body()] is [data_ + header_length]; the bytes of the body are the
    [body_length_] characters from there. *)
Definition body (m : chat_message) : list ascii :=
  take (Z.to_nat (body_length_ m)) (drop header_length (data_ m)).

Definition body_length (m : chat_message) : Z := body_length_ m.

Definition set_body_length (new_length : Z) (m : chat_message) : chat_message :=
  let m1 := {| data_ := data_ m; body_length_ := new_length |} in
  if (body_length_ m1 >? max_body_length)%Z
  then {| data_ := data_ m1; body_length_ := max_body_length |}
  else m1.

Definition decode_header (m : chat_message) : bool * chat_message :=
  let header := strncat [] (data_ m) header_length in
  let m1 := {| data_ := data_ m; body_length_ := to_size_t (atoi header) |} in
  if (body_length_ m1 >? max_body_length)%Z
  then (false, {| data_ := data_ m1; body_length_ := 0 |})
  else (true, m1).

(** The value [decode_header] parses is that of at most four characters. *)
Definition parsed_header (m : chat_message) : Z :=
  atoi (strncat [] (data_ m) header_length).

(** [sprintf] into the five-byte [header], then [memcpy] of its first
    [header_length] bytes.  The length field never exceeds 512 (it starts
    at 0 and only [body_length] and [decode_header] assign it), so the
    text always fits; the model takes the first four characters. *)
Definition encode_header (m : chat_message) : chat_message :=
  let header := sprintf_4d (to_int (body_length_ m)) in
  {| data_ := memcpy (data_ m) 0 header header_length;
     body_length_ := body_length_ m |}.

(** The bytes [async_write] is given for a message:
    [buffer(data(), length())]. *)
Definition frame (m : chat_message) : list ascii :=
  take (Z.to_nat (length m)) (data m).

(** What the client's input loop does with one line:
    [body_length(strlen(line)); memcpy(body(), line, body_length());
    encode_header()]. *)
Definition make_message (line : list ascii) (msg : chat_message) : chat_message :=
  let m1 := set_body_length (Z.of_nat (List.length line)) msg in
  let m2 := {| data_ := memcpy (data_ m1) header_length line
                          (Z.to_nat (body_length m1));
               body_length_ := body_length_ m1 |} in
  encode_header m2.

(** A completed [async_read] into [buffer(data(), header_length)]. *)
Definition read_into_header (bytes : list ascii) (m : chat_message) : chat_message :=
  {| data_ := memcpy (data_ m) 0 bytes (List.length bytes);
     body_length_ := body_length_ m |}.

(** A completed [async_read] into [buffer(body(), body_length())]. *)
Definition read_into_body (bytes : list ascii) (m : chat_message) : chat_message :=
  {| data_ := memcpy (data_ m) header_length bytes (List.length bytes);
     body_length_ := body_length_ m |}.

End ChatMessage.

(** ** chat_server.cpp *)

Module ChatServer.
Import ChatMessage.

(** The read a session has outstanding, if any. *)
Inductive read_op := NoRead | ReadHeader | ReadBody.

(** A socket: the bytes it has put on the wire and the asynchronous
    operations outstanding on it.  [async_write] is handed a buffer over
    the front message of the queue, which nothing touches until the
    completion handler pops it, so the operation is recorded with the
    bytes of that buffer. *)

Record tcp_socket := Build_tcp_socket {
  sent_ : list ascii;
  writes_ : list (list ascii);
  read_ : read_op
}.

Definition async_write (buf : list ascii) (sk : tcp_socket) : tcp_socket :=
  {| sent_ := sent_ sk; writes_ := writes_ sk ++ [buf]; read_ := read_ sk |}.

Definition async_read (op : read_op) (sk : tcp_socket) : tcp_socket :=
  {| sent_ := sent_ sk; writes_ := writes_ sk; read_ := op |}.

(** The oldest outstanding write completes.  Without an error the whole
    buffer has been transferred; with one, only its first [n] bytes. *)
Definition complete_write (ec : bool) (n : nat) (sk : tcp_socket) : tcp_socket :=
  match writes_ sk with
  | buf :: rest =>
      {| sent_ := sent_ sk ++ (if ec then take n buf else buf);
         writes_ := rest; read_ := read_ sk |}
  | [] => sk
  end.

Record chat_session := Build_chat_session {
  socket_ : tcp_socket;
  read_msg_ : chat_message;
  write_msgs_ : list chat_message
}.

Definition with_socket (f : tcp_socket -> tcp_socket) (s : chat_session)
  : chat_session :=
  {| socket_ := f (socket_ s); read_msg_ := read_msg_ s;
     write_msgs_ := write_msgs_ s |}.

Definition with_read_msg (f : chat_message -> chat_message) (s : chat_session)
  : chat_session :=
  {| socket_ := socket_ s; read_msg_ := f (read_msg_ s);
     write_msgs_ := write_msgs_ s |}.

Definition with_write_msgs (f : list chat_message -> list chat_message)
  (s : chat_session) : chat_session :=
  {| socket_ := socket_ s; read_msg_ := read_msg_ s;
     write_msgs_ := f (write_msgs_ s) |}.

Definition is_empty {A} (q : list A) : bool :=
  match q with [] => true | _ => false end.

Definition pop_front {A} (q : list A) : list A := tl q.

(** [chat_session::do_write]: start one [async_write] of the front message. *)
Definition do_write (s : chat_session) : chat_session :=
  match write_msgs_ s with
  | front :: _ => with_socket (async_write (frame front)) s
  | [] => s
  end.

(** [chat_session::deliver]. *)
Definition session_deliver (msg : chat_message) (s : chat_session)
  : chat_session :=
  let write_in_progress := negb (is_empty (write_msgs_ s)) in
  let s1 := with_write_msgs (fun q => q ++ [msg]) s in
  if negb write_in_progress then do_write s1 else s1.

(** The session's part of the completion handler of [do_write]; the
    [else] branch only calls [room_.leave], see [on_write]. *)
Definition write_handler (ec : bool) (s : chat_session) : chat_session :=
  if negb ec then
    let s1 := with_write_msgs pop_front s in
    if negb (is_empty (write_msgs_ s1)) then do_write s1 else s1
  else s.

Definition do_read_header (s : chat_session) : chat_session :=
  with_socket (async_read ReadHeader) s.

Definition do_read_body (s : chat_session) : chat_session :=
  with_socket (async_read ReadBody) s.

(** *** chat_room *)

Definition max_recent_msgs : nat := 100.

Record chat_room := Build_chat_room {
  participants_ : gset nat;
  recent_msgs_ : list chat_message
}.

(** The server: its room and the sessions alive on the heap, by identity. *)
Record state := Build_state {
  room_ : chat_room;
  sessions : gmap nat chat_session
}.

(** [participant->deliver(msg)] through the shared pointer [p]. *)
Definition deliver_to (msg : chat_message) (p : nat)
  (h : gmap nat chat_session) : gmap nat chat_session :=
  alter (session_deliver msg) p h.

(** [while (recent_msgs_.size() > max_recent_msgs) recent_msgs_.pop_front();] *)
Fixpoint trim_recent (q : list chat_message) : list chat_message :=
  match q with
  | [] => []
  | _ :: q' => if (max_recent_msgs <? List.length q)%nat then trim_recent q' else q
  end.

Definition join (p : nat) (st : state) : state :=
  {| room_ := {| participants_ := {[p]} ∪ participants_ (room_ st);
                 recent_msgs_ := recent_msgs_ (room_ st) |};
     sessions := foldl (fun h msg => deliver_to msg p h) (sessions st)
                   (recent_msgs_ (room_ st)) |}.

Definition leave (p : nat) (st : state) : state :=
  {| room_ := {| participants_ := participants_ (room_ st) ∖ {[p]};
                 recent_msgs_ := recent_msgs_ (room_ st) |};
     sessions := sessions st |}.

Definition deliver (msg : chat_message) (st : state) : state :=
  {| room_ := {| participants_ := participants_ (room_ st);
                 recent_msgs_ := trim_recent (recent_msgs_ (room_ st) ++ [msg]) |};
     sessions := set_fold (deliver_to msg) (sessions st)
                   (participants_ (room_ st)) |}.

(** *** Completion handlers, on the whole server *)

(** A handler's captured [self] goes away when it returns: a session that
    is neither in the room nor referenced by an outstanding operation is
    destroyed, which closes its socket. *)
Definition unreferenced (s : chat_session) : bool :=
  is_empty (writes_ (socket_ s)) &&
  match read_ (socket_ s) with NoRead => true | _ => false end.

Definition release (p : nat) (st : state) : state :=
  match sessions st !! p with
  | Some s =>
      if decide (p ∈ participants_ (room_ st)) then st
      else if unreferenced s
      then {| room_ := room_ st; sessions := delete p (sessions st) |}
      else st
  | None => st
  end.

Definition update (p : nat) (f : chat_session -> chat_session) (st : state)
  : state :=
  {| room_ := room_ st; sessions := alter f p (sessions st) |}.

(** [chat_session::start] on a session just made by [do_accept]. *)
Definition start (p : nat) (st : state) : state :=
  update p do_read_header (join p st).

(** The handler of [do_accept] without an error: [make_shared] gives a
    new session at address [p], whose [read_msg_] buffer holds [buf]. *)
Definition on_accept (p : nat) (buf : list ascii) (st : state) : state :=
  let s := {| socket_ := {| sent_ := []; writes_ := []; read_ := NoRead |};
              read_msg_ := {| data_ := buf; body_length_ := 0 |};
              write_msgs_ := [] |} in
  start p {| room_ := room_ st; sessions := <[p := s]> (sessions st) |}.

(** The handler of [do_read_header], after [bytes] arrived in
    [read_msg_.data()].  [ec] is true when the error code is set. *)
Definition on_read_header (p : nat) (ec : bool) (bytes : list ascii)
  (st : state) : state :=
  let st1 := update p (fun s => with_socket (async_read NoRead)
                                  (with_read_msg (read_into_header bytes) s)) st in
  match sessions st1 !! p with
  | Some s =>
      let st2 :=
        if ec then leave p st1
        else
          let (ok, m) := decode_header (read_msg_ s) in
          let st' := update p (with_read_msg (fun _ => m)) st1 in
          if ok then update p do_read_body st' else leave p st'
      in release p st2
  | None => st1
  end.

(** The handler of [do_read_body]. *)
Definition on_read_body (p : nat) (ec : bool) (bytes : list ascii)
  (st : state) : state :=
  let st1 := update p (fun s => with_socket (async_read NoRead)
                                  (with_read_msg (read_into_body bytes) s)) st in
  match sessions st1 !! p with
  | Some s =>
      let st2 :=
        if negb ec then update p do_read_header (deliver (read_msg_ s) st1)
        else leave p st1
      in release p st2
  | None => st1
  end.

(** The handler of [do_write]. *)
Definition on_write (p : nat) (ec : bool) (n : nat) (st : state) : state :=
  let st1 := update p (with_socket (complete_write ec n)) st in
  let st2 := update p (write_handler ec) st1 in
  release p (if negb ec then st2 else leave p st2).

(** *** The write side of one session as a transition system *)

Inductive write_event :=
  | Enqueue (msg : chat_message)         (* a call of [deliver] *)
  | Completed (ec : bool) (n : nat).     (* the outstanding write completes *)

Inductive write_step : chat_session -> write_event -> chat_session -> Prop :=
  | step_enqueue s msg :
      write_step s (Enqueue msg) (session_deliver msg s)
  | step_completed s ec n buf rest :
      writes_ (socket_ s) = buf :: rest ->
      write_step s (Completed ec n)
        (write_handler ec (with_socket (complete_write ec n) s)).

Inductive write_run : chat_session -> list write_event -> chat_session -> Prop :=
  | run_nil s : write_run s [] s
  | run_snoc s evs s1 e s2 :
      write_run s evs s1 -> write_step s1 e s2 ->
      write_run s (evs ++ [e]) s2.

Definition enqueued (evs : list write_event) : list chat_message :=
  omap (fun e => match e with Enqueue m => Some m | _ => None end) evs.

Definition completions (evs : list write_event) : nat :=
  List.length
    (List.filter (fun e => match e with Completed _ _ => true | _ => false end) evs).

Definition failed (evs : list write_event) : bool :=
  existsb (fun e => match e with Completed true _ => true | _ => false end) evs.

(** The same system as a function, for running traces: [None] when a
    completion is given although no write is outstanding. *)
Definition write_next (e : write_event) (s : chat_session)
  : option chat_session :=
  match e with
  | Enqueue msg => Some (session_deliver msg s)
  | Completed ec n =>
      match writes_ (socket_ s) with
      | [] => None
      | _ :: _ => Some (write_handler ec (with_socket (complete_write ec n) s))
      end
  end.

Fixpoint write_exec (evs : list write_event) (s : chat_session)
  : option chat_session :=
  match evs with
  | [] => Some s
  | e :: evs' =>
      match write_next e s with
      | Some s' => write_exec evs' s'
      | None => None
      end
  end.

(** The three shapes the write side of a session can have after the
    events [evs]: nothing queued and nothing outstanding; a non-empty
    queue with exactly one write outstanding, that of its front message;
    or, after a failed write, a queue that is no longer drained. *)
Inductive write_inv (evs : list write_event) (s : chat_session) : Prop :=
  | inv_idle done :
      enqueued evs = done ->
      failed evs = false -> completions evs = List.length done ->
      write_msgs_ s = [] -> writes_ (socket_ s) = [] ->
      sent_ (socket_ s) = concat (map frame done) ->
      write_inv evs s
  | inv_writing done front queue :
      enqueued evs = done ++ front :: queue ->
      failed evs = false -> completions evs = List.length done ->
      write_msgs_ s = front :: queue -> writes_ (socket_ s) = [frame front] ->
      sent_ (socket_ s) = concat (map frame done) ->
      write_inv evs s
  | inv_broken done front queue n :
      enqueued evs = done ++ front :: queue ->
      failed evs = true ->
      write_msgs_ s = front :: queue -> writes_ (socket_ s) = [] ->
      sent_ (socket_ s) = concat (map frame done) ++ take n (frame front) ->
      write_inv evs s.

(** A session as [do_accept] makes it: nothing queued, nothing sent. *)
Definition fresh (s : chat_session) : Prop :=
  write_msgs_ s = [] /\ writes_ (socket_ s) = [] /\ sent_ (socket_ s) = [].

Definition empty_room : chat_room :=
  {| participants_ := ∅; recent_msgs_ := [] |}.

(** A run of [deliver] calls on the room, oldest message first. *)
Definition deliver_all (msgs : list chat_message) (st : state) : state :=
  foldl (fun st msg => deliver msg st) st msgs.

End ChatServer.

(** ** Sample data *)

Module Samples.
Import ChatMessage ChatServer.

(** A blank message buffer and a line of input. *)
Definition blank : chat_message :=
  {| data_ := repeat "."%char 516; body_length_ := 0 |}.

Definition hello : list ascii := String.list_ascii_of_string "hello".

(** A session as its constructor leaves it. *)
Definition new_session : chat_session :=
  {| socket_ := {| sent_ := []; writes_ := []; read_ := NoRead |};
     read_msg_ := blank;
     write_msgs_ := [] |}.

Definition msg_of (text : String.string) : chat_message :=
  make_message (String.list_ascii_of_string text) blank.

(** Three messages delivered before the first write completes, then two
    successful completions, and the session state this leads to. *)
Definition three_then_two : list write_event :=
  [Enqueue (msg_of "one"); Enqueue (msg_of "two"); Enqueue (msg_of "three");
   Completed false 0; Completed false 0].

Definition after_three_then_two : chat_session :=
  {| socket_ := {| sent_ := frame (msg_of "one") ++ frame (msg_of "two");
                   writes_ := [frame (msg_of "three")]; read_ := NoRead |};
     read_msg_ := blank;
     write_msgs_ := [msg_of "three"] |}.

Definition history3 : list chat_message :=
  [msg_of "one"; msg_of "two"; msg_of "three"].

(** Session 1 has joined, session 2 exists but has not. *)
Definition lobby : state :=
  {| room_ := {| participants_ := {[1]}; recent_msgs_ := history3 |};
     sessions := <[1 := new_session]> (<[2 := new_session]> ∅) |}.

(** Nobody has joined and nothing was delivered yet. *)
Definition empty_lobby : state :=
  {| room_ := empty_room; sessions := <[2 := new_session]> ∅ |}.

(** [n] distinct one-byte messages, and a header announcing 600 bytes. *)
Definition numbered (n : nat) : list chat_message :=
  map (fun i => make_message [ascii_of_nat i] blank) (seq 0 n).

Definition oversized : list ascii := String.list_ascii_of_string "0600".

End Samples.

(** ** The server as a transition system *)

Module ServerSystem.
Import ChatMessage ChatServer.

(** What the [io_context] can run next: the completion handler of an
    accept, of a session's outstanding read, or of its outstanding write. *)
Inductive server_event :=
  | Accepted (p : nat) (buf : list ascii)
  | HeaderRead (p : nat) (ec : bool) (bytes : list ascii)
  | BodyRead (p : nat) (ec : bool) (bytes : list ascii)
  | Written (p : nat) (ec : bool) (n : nat).

(** A handler runs only for an operation that is outstanding.  A new
    session gets an address no live session has, and its message buffer
    has the declared size.  A read transfers at most the bytes asked for,
    and all of them when it reports no error. *)
Inductive server_step : state -> server_event -> state -> Prop :=
  | step_accept st p buf :
      sessions st !! p = None ->
      List.length buf = header_length + Z.to_nat max_body_length ->
      server_step st (Accepted p buf) (on_accept p buf st)
  | step_header st p s ec bytes :
      sessions st !! p = Some s ->
      read_ (socket_ s) = ReadHeader ->
      List.length bytes <= header_length ->
      (ec = false -> List.length bytes = header_length) ->
      server_step st (HeaderRead p ec bytes) (on_read_header p ec bytes st)
  | step_body st p s ec bytes :
      sessions st !! p = Some s ->
      read_ (socket_ s) = ReadBody ->
      (Z.of_nat (List.length bytes) <= body_length (read_msg_ s))%Z ->
      (ec = false -> Z.of_nat (List.length bytes) = body_length (read_msg_ s)) ->
      server_step st (BodyRead p ec bytes) (on_read_body p ec bytes st)
  | step_write st p s ec n buf rest :
      sessions st !! p = Some s ->
      writes_ (socket_ s) = buf :: rest ->
      server_step st (Written p ec n) (on_write p ec n st).

Definition initial : state := {| room_ := empty_room; sessions := ∅ |}.

Inductive reachable : state -> Prop :=
  | reach_init : reachable initial
  | reach_step st e st' :
      reachable st -> server_step st e st' -> reachable st'.

(** A message whose buffer has the declared size and whose length field
    is one the buffer can hold. *)
Definition msg_ok (m : chat_message) : Prop :=
  wf m /\ (0 <= body_length_ m <= max_body_length)%Z.

(** The write side of a session: nothing outstanding (and, for a session
    in the room, nothing queued), or exactly one write outstanding, that
    of the front of the queue. *)
Definition write_side_ok (member : Prop) (s : chat_session) : Prop :=
  (writes_ (socket_ s) = [] /\ (member -> write_msgs_ s = [])) \/
  (exists front queue,
     write_msgs_ s = front :: queue /\ writes_ (socket_ s) = [frame front]).

Definition session_ok (member : Prop) (s : chat_session) : Prop :=
  msg_ok (read_msg_ s) /\ Forall msg_ok (write_msgs_ s) /\
  write_side_ok member s.

(** The invariant of the server.  While the handler of session [busy]
    runs, that session may be left without any reference for a moment;
    [release] settles it when the handler returns. *)
Definition server_inv_but (busy : option nat) (st : state) : Prop :=
  List.length (recent_msgs_ (room_ st)) <= max_recent_msgs /\
  Forall msg_ok (recent_msgs_ (room_ st)) /\
  (forall p, p ∈ participants_ (room_ st) -> is_Some (sessions st !! p)) /\
  (forall p s, sessions st !! p = Some s ->
     session_ok (p ∈ participants_ (room_ st)) s /\
     (busy <> Some p -> (p ∉ participants_ (room_ st)) ->
      unreferenced s = false)).

Definition server_inv (st : state) : Prop := server_inv_but None st.

End ServerSystem.

(** A short run of the server: one client connects and sends "hello". *)
Module ServerSamples.
Import ChatMessage ChatServer ServerSystem Samples.

Definition header5 : list ascii := String.list_ascii_of_string "   5".

Definition one_echo : state :=
  on_read_body 1 false hello
    (on_read_header 1 false header5
       (on_accept 1 (repeat "."%char 516) initial)).

End ServerSamples.

(** ** chat_client.cpp *)

Module ChatClient.
Import ChatMessage.
Import ChatServer (tcp_socket, sent_, writes_, read_, read_op, NoRead,
  ReadHeader, ReadBody, async_write, async_read, complete_write, is_empty,
  pop_front, write_event, Enqueue, Completed).

(** The client: its socket with the operations outstanding on it and
    whether it is still open, the message being read, the outbound
    queue, and what it has written to [std::cout]. *)
Record chat_client := Build_chat_client {
  socket_ : tcp_socket;
  is_open_ : bool;
  read_msg_ : chat_message;
  write_msgs_ : list chat_message;
  cout_ : list ascii
}.

Definition with_socket (f : tcp_socket -> tcp_socket) (c : chat_client)
  : chat_client :=
  {| socket_ := f (socket_ c); is_open_ := is_open_ c;
     read_msg_ := read_msg_ c; write_msgs_ := write_msgs_ c;
     cout_ := cout_ c |}.

Definition with_read_msg (f : chat_message -> chat_message) (c : chat_client)
  : chat_client :=
  {| socket_ := socket_ c; is_open_ := is_open_ c;
     read_msg_ := f (read_msg_ c); write_msgs_ := write_msgs_ c;
     cout_ := cout_ c |}.

Definition with_write_msgs (f : list chat_message -> list chat_message)
  (c : chat_client) : chat_client :=
  {| socket_ := socket_ c; is_open_ := is_open_ c;
     read_msg_ := read_msg_ c; write_msgs_ := f (write_msgs_ c);
     cout_ := cout_ c |}.

(** [std::cout.write(p, n)] and [std::cout << "\n"]. *)
Definition cout_write (bytes : list ascii) (c : chat_client) : chat_client :=
  {| socket_ := socket_ c; is_open_ := is_open_ c;
     read_msg_ := read_msg_ c; write_msgs_ := write_msgs_ c;
     cout_ := cout_ c ++ bytes |}.

Definition newline : ascii := ascii_of_nat 10.

(** [socket_.close()]. *)
Definition socket_close (c : chat_client) : chat_client :=
  {| socket_ := socket_ c; is_open_ := false;
     read_msg_ := read_msg_ c; write_msgs_ := write_msgs_ c;
     cout_ := cout_ c |}.

Definition do_write (c : chat_client) : chat_client :=
  match write_msgs_ c with
  | front :: _ => with_socket (async_write (frame front)) c
  | [] => c
  end.

(** The function [chat_client::write] posts to the [io_context]. *)
Definition write_posted (msg : chat_message) (c : chat_client) : chat_client :=
  let write_in_progress := negb (is_empty (write_msgs_ c)) in
  let c1 := with_write_msgs (fun q => q ++ [msg]) c in
  if negb write_in_progress then do_write c1 else c1.

(** The function [chat_client::close] posts. *)
Definition close_posted (c : chat_client) : chat_client := socket_close c.

(** The handler of [do_write], after the socket recorded the completion. *)
Definition on_write (ec : bool) (n : nat) (c : chat_client) : chat_client :=
  let c0 := with_socket (complete_write ec n) c in
  if negb ec then
    let c1 := with_write_msgs pop_front c0 in
    if negb (is_empty (write_msgs_ c1)) then do_write c1 else c1
  else socket_close c0.

Definition do_read_header (c : chat_client) : chat_client :=
  with_socket (async_read ReadHeader) c.

Definition do_read_body (c : chat_client) : chat_client :=
  with_socket (async_read ReadBody) c.

(** The handler of [do_connect]. *)
Definition on_connect (ec : bool) (c : chat_client) : chat_client :=
  if negb ec then do_read_header c else c.

(** The handler of [do_read_header], after [bytes] arrived in
    [read_msg_.data()]. *)
Definition on_read_header (ec : bool) (bytes : list ascii) (c : chat_client)
  : chat_client :=
  let c1 := with_socket (async_read NoRead)
              (with_read_msg (read_into_header bytes) c) in
  if ec then socket_close c1
  else
    let (ok, m) := decode_header (read_msg_ c1) in
    let c2 := with_read_msg (fun _ => m) c1 in
    if ok then do_read_body c2 else socket_close c2.

(** The handler of [do_read_body], after [bytes] arrived in
    [read_msg_.body()]. *)
Definition on_read_body (ec : bool) (bytes : list ascii) (c : chat_client)
  : chat_client :=
  let c1 := with_socket (async_read NoRead)
              (with_read_msg (read_into_body bytes) c) in
  if negb ec then
    do_read_header
      (cout_write [newline] (cout_write (body (read_msg_ c1)) c1))
  else socket_close c1.

(** The write side of the client as a transition system, with the
    events of the server session's: [Enqueue] is the function posted by
    [write] running, [Completed] the outstanding write completing. *)
Inductive client_write_step : chat_client -> write_event -> chat_client -> Prop :=
  | client_enqueue c msg :
      client_write_step c (Enqueue msg) (write_posted msg c)
  | client_completed c ec n buf rest :
      writes_ (socket_ c) = buf :: rest ->
      client_write_step c (Completed ec n) (on_write ec n c).

Inductive client_write_run
  : chat_client -> list write_event -> chat_client -> Prop :=
  | client_run_nil c : client_write_run c [] c
  | client_run_snoc c evs c1 e c2 :
      client_write_run c evs c1 -> client_write_step c1 e c2 ->
      client_write_run c (evs ++ [e]) c2.

(** The write side of a client seen as that of a server session. *)
Definition write_side (c : chat_client) : ChatServer.chat_session :=
  {| ChatServer.socket_ := socket_ c;
     ChatServer.read_msg_ := read_msg_ c;
     ChatServer.write_msgs_ := write_msgs_ c |}.

(** The client's input loop: each line becomes a message (built in a
    new, uninitialised buffer [scratch]) and is handed to [write]. *)
Definition input_events (scratch : chat_message) (lines : list (list ascii))
  : list write_event :=
  map (fun line => Enqueue (make_message line scratch)) lines.

(** A connected client that has not written or printed anything. *)
Definition new_client (buf : list ascii) : chat_client :=
  {| socket_ := {| sent_ := []; writes_ := []; read_ := ReadHeader |};
     is_open_ := true;
     read_msg_ := {| data_ := buf; body_length_ := 0 |};
     write_msgs_ := [];
     cout_ := [] |}.

End ChatClient.

(** * Properties *)

(** ** The C library model *)

Module CLibFacts.
Import CLib.

Local Open Scope Z_scope.

Lemma isdigit_inv c :
  isdigit c = true ->
  isspace c = false /\ Ascii.eqb c Ascii.zero = false /\
  Ascii.eqb c "-"%char = false /\ Ascii.eqb c "+"%char = false.
Proof.
  destruct c as [[] [] [] [] [] [] [] []]; vm_compute; intros H;
    first [discriminate H | repeat split].
Qed.

Lemma digit_char_spec d :
  0 <= d <= 9 -> isdigit (digit_char d) = true /\ digit_val (digit_char d) = d.
Proof.
  intros Hd.
  assert (Hcases : d = 0 \/ d = 1 \/ d = 2 \/ d = 3 \/ d = 4 \/
                   d = 5 \/ d = 6 \/ d = 7 \/ d = 8 \/ d = 9) by lia.
  repeat (destruct Hcases as [-> | Hcases]; [split; reflexivity |]).
  subst d; split; reflexivity.
Qed.

Lemma atoi_digits_app ds rest a :
  Forall (fun c => isdigit c = true) ds ->
  atoi_digits a (ds ++ rest) = atoi_digits (atoi_digits a ds) rest.
Proof.
  intros Hds; revert a.
  induction Hds as [| c ds Hc _ IH]; intros a; simpl; [reflexivity |].
  rewrite Hc. apply IH.
Qed.

Lemma utoa_aux_spec fuel :
  forall n acc,
    0 <= n < 2 ^ Z.of_nat fuel -> fuel <> O ->
    exists ds, utoa_aux fuel n acc = ds ++ acc /\ decimal_of n ds.
Proof.
  induction fuel as [| fuel IH]; intros n acc Hn Hfuel; [congruence |].
  cbn [utoa_aux].
  assert (Hmod : 0 <= n mod 10 <= 9) by (pose proof (Z.mod_pos_bound n 10); lia).
  destruct (digit_char_spec _ Hmod) as [Hdig Hval].
  destruct (Z.eqb_spec (n / 10) 0) as [Hq | Hq].
  - exists [digit_char (n mod 10)]. split; [reflexivity |].
    assert (n = n mod 10) by (pose proof (Z.div_mod n 10); lia).
    repeat split.
    + discriminate.
    + constructor; [exact Hdig | constructor].
    + intros a. cbn [atoi_digits]. rewrite Hdig, Hval. cbn. lia.
    + left; reflexivity.
  - assert (Hq' : 0 < n / 10) by (pose proof (Z.div_pos n 10); lia).
    assert (Hlt : n / 10 < 2 ^ Z.of_nat fuel).
    { apply Z.div_lt_upper_bound; [lia |].
      rewrite Nat2Z.inj_succ, Z.pow_succ_r in Hn by lia. lia. }
    assert (Hf : fuel <> O).
    { intros ->. cbn in Hlt. lia. }
    destruct (IH (n / 10) (digit_char (n mod 10) :: acc)) as (ds & Heq & Hne & Hall & Hrd & Hw);
      [lia | exact Hf |].
    exists (ds ++ [digit_char (n mod 10)]). split.
    { rewrite Heq, <- app_assoc. reflexivity. }
    assert (Hlen : Z.of_nat (List.length (ds ++ [digit_char (n mod 10)]))
                   = Z.of_nat (List.length ds) + 1).
    { rewrite length_app. cbn. lia. }
    repeat split.
    + destruct ds; discriminate.
    + apply Forall_app. split; [exact Hall |]. constructor; [exact Hdig | constructor].
    + intros a. rewrite atoi_digits_app by exact Hall.
      cbn [atoi_digits]. rewrite Hdig, Hval, Hrd, Hlen.
      rewrite Z.pow_add_r by lia.
      pose proof (Z.div_mod n 10). lia.
    + right. rewrite Hlen.
      replace (Z.of_nat (List.length ds) + 1 - 1) with (Z.of_nat (List.length ds)) by lia.
      destruct Hw as [Hw | Hw].
      * rewrite Hw. cbn. pose proof (Z.div_mod n 10). lia.
      * assert (Hds : (1 <= List.length ds)%nat) by (destruct ds; [congruence | cbn; lia]).
        replace (Z.of_nat (List.length ds)) with (Z.of_nat (List.length ds) - 1 + 1) by lia.
        rewrite Z.pow_add_r by lia.
        pose proof (Z.div_mod n 10). lia.
Qed.

Lemma utoa_spec n : 0 <= n -> decimal_of n (utoa n).
Proof.
  intros Hn. unfold utoa.
  destruct (utoa_aux_spec (S (Z.to_nat (Z.log2 n))) n []) as (ds & Heq & Hds).
  - split; [exact Hn |].
    rewrite Nat2Z.inj_succ, Z2Nat.id by apply Z.log2_nonneg.
    destruct (Z.eq_dec n 0) as [-> | Hnz]; [reflexivity |].
    apply Z.log2_spec. lia.
  - discriminate.
  - rewrite Heq, app_nil_r. exact Hds.
Qed.

Lemma decimal_width n ds :
  decimal_of n ds -> 0 <= n <= 9999 -> (List.length ds <= 4)%nat.
Proof.
  intros (_ & _ & _ & Hw) Hn.
  destruct Hw as [Hw | Hw]; [lia |].
  destruct (le_lt_dec (List.length ds) 4) as [Hle | Hgt]; [exact Hle |].
  assert (10 ^ 4 <= 10 ^ (Z.of_nat (List.length ds) - 1))
    by (apply Z.pow_le_mono_r; lia).
  lia.
Qed.

Lemma skip_spaces_pad k ds :
  skip_spaces (repeat " "%char k ++ ds) = skip_spaces ds.
Proof. induction k as [| k IH]; [reflexivity | exact IH]. Qed.

Lemma atoi_pad_decimal k n ds :
  decimal_of n ds -> atoi (repeat " "%char k ++ ds) = n.
Proof.
  intros (Hne & Hall & Hrd & _). unfold atoi.
  rewrite skip_spaces_pad.
  destruct Hall as [| c ds Hc Hall]; [congruence |].
  destruct (isdigit_inv c Hc) as (Hsp & _ & Hminus & Hplus).
  cbn [skip_spaces]. rewrite Hsp, Hminus, Hplus.
  rewrite (Hrd 0). lia.
Qed.

Lemma strn_chars_all l rest :
  Forall (fun c => Ascii.eqb c Ascii.zero = false) l ->
  strn_chars (l ++ rest) (List.length l) = l.
Proof.
  induction 1 as [| c l Hc _ IH]; cbn; [destruct rest; reflexivity |].
  rewrite Hc, IH. reflexivity.
Qed.

(** For the lengths a header can hold, ["%4d"] prints exactly four
    characters, none of them NUL, and [atoi] reads the number back. *)
Lemma sprintf_4d_spec n :
  0 <= n <= 9999 ->
  List.length (sprintf_4d n) = 4%nat /\
  Forall (fun c => Ascii.eqb c Ascii.zero = false) (sprintf_4d n) /\
  atoi (sprintf_4d n) = n.
Proof.
  intros Hn. unfold sprintf_4d, itoa, pad_left.
  destruct (Z.ltb_spec n 0) as [Hneg | _]; [lia |].
  pose proof (utoa_spec n (proj1 Hn)) as Hdec.
  pose proof (decimal_width _ _ Hdec Hn) as Hw.
  repeat split.
  - rewrite length_app, repeat_length. lia.
  - apply Forall_app. split.
    + apply List.Forall_forall. intros c Hc. apply repeat_spec in Hc. subst c. reflexivity.
    + destruct Hdec as (_ & Hall & _).
      eapply Forall_impl; [exact Hall |].
      intros c Hc. apply (isdigit_inv c Hc).
  - apply atoi_pad_decimal. exact Hdec.
Qed.

Lemma to_int_small n : 0 <= n < 2 ^ 31 -> to_int n = n.
Proof. intros Hn. unfold to_int. rewrite Z.mod_small; lia. Qed.

Lemma to_size_t_small n : 0 <= n < 2 ^ 64 -> to_size_t n = n.
Proof. intros Hn. unfold to_size_t. apply Z.mod_small. exact Hn. Qed.

Lemma to_size_t_range v : 0 <= to_size_t v < 2 ^ 64.
Proof. unfold to_size_t. apply Z.mod_pos_bound. lia. Qed.

Lemma length_memcpy buf off src n :
  (off + n <= List.length buf)%nat -> (n <= List.length src)%nat ->
  List.length (memcpy buf off src n) = List.length buf.
Proof.
  intros Hb Hs. unfold memcpy.
  rewrite !length_app, !length_take, length_drop. lia.
Qed.

End CLibFacts.

(** ** The frame codec *)

Module ChatMessageFacts.
Import CLib CLibFacts ChatMessage Samples.

Local Open Scope Z_scope.

Lemma isdigit_val c : isdigit c = true -> 0 <= digit_val c <= 9.
Proof.
  destruct c as [[] [] [] [] [] [] [] []]; vm_compute; intros H;
    first [discriminate H | split; discriminate].
Qed.

Lemma atoi_digits_bound s :
  forall a, 0 <= a ->
    a <= atoi_digits a s < (a + 1) * 10 ^ Z.of_nat (List.length s).
Proof.
  induction s as [| c s IH]; intros a Ha; cbn [atoi_digits List.length].
  - cbn. lia.
  - rewrite Nat2Z.inj_succ, Z.pow_succ_r by lia.
    assert (Hpow : 0 < 10 ^ Z.of_nat (List.length s)) by (apply Z.pow_pos_nonneg; lia).
    destruct (isdigit c) eqn:Hc.
    + pose proof (isdigit_val c Hc) as Hd.
      specialize (IH (10 * a + digit_val c) ltac:(lia)). nia.
    + nia.
Qed.

Lemma length_skip_spaces s : (List.length (skip_spaces s) <= List.length s)%nat.
Proof.
  induction s as [| c s IH]; cbn; [lia |].
  destruct (isspace c); cbn; lia.
Qed.

(** [atoi] cannot overflow an [int] on the few characters of a header. *)
Lemma atoi_bound s :
  - 10 ^ Z.of_nat (List.length s) < atoi s < 10 ^ Z.of_nat (List.length s).
Proof.
  unfold atoi. pose proof (length_skip_spaces s) as Hlen.
  assert (Hmono : forall k : nat, (k <= List.length s)%nat ->
                    10 ^ Z.of_nat k <= 10 ^ Z.of_nat (List.length s))
    by (intros k Hk; apply Z.pow_le_mono_r; lia).
  assert (Hpos : 0 < 10 ^ Z.of_nat (List.length s)) by (apply Z.pow_pos_nonneg; lia).
  destruct (skip_spaces s) as [| c s'] eqn:Hs; [lia |].
  cbn [List.length] in Hlen.
  pose proof (atoi_digits_bound s' 0 ltac:(lia)) as Hs'.
  pose proof (atoi_digits_bound (c :: s') 0 ltac:(lia)) as Hcs'.
  pose proof (Hmono (List.length s') ltac:(lia)).
  pose proof (Hmono (List.length (c :: s')) ltac:(cbn; lia)).
  destruct (Ascii.eqb c "-"); [lia |].
  destruct (Ascii.eqb c "+"); lia.
Qed.

Lemma length_strn_chars src n : (List.length (strn_chars src n) <= n)%nat.
Proof.
  revert src; induction n as [| n IH]; intros [| c src]; cbn; try lia.
  destruct (Ascii.eqb c zero); cbn; [lia |]. specialize (IH src). lia.
Qed.

Lemma parsed_header_bound m : -10000 < parsed_header m < 10000.
Proof.
  unfold parsed_header, strncat. cbn [app].
  pose proof (atoi_bound (strn_chars (data_ m) header_length)) as Hb.
  pose proof (length_strn_chars (data_ m) header_length) as Hl.
  unfold header_length in *.
  assert (10 ^ Z.of_nat (List.length (strn_chars (data_ m) 4)) <= 10 ^ 4)
    by (apply Z.pow_le_mono_r; lia).
  lia.
Qed.

(** [decode_header] accepts exactly the headers whose value is a length
    the body buffer can hold. *)
Lemma decode_header_true_iff m :
  fst (decode_header m) = true <-> 0 <= parsed_header m <= 512.
Proof.
  pose proof (parsed_header_bound m) as Hb.
  unfold decode_header. fold (parsed_header m). cbn [body_length_].
  unfold to_size_t, max_body_length.
  destruct (Z_lt_le_dec (parsed_header m) 0) as [Hneg | Hpos].
  - replace (parsed_header m mod 2 ^ 64) with (parsed_header m + 2 ^ 64).
    + destruct (Z.gtb_spec (parsed_header m + 2 ^ 64) 512); cbn [fst]; split;
        intros; try discriminate; lia.
    + apply Z.mod_unique with (q := -1); lia.
  - rewrite Z.mod_small by lia.
    destruct (Z.gtb_spec (parsed_header m) 512); cbn [fst]; split;
      intros; try discriminate; try lia; reflexivity.
Qed.

Lemma decode_header_printed L rest bl :
  0 <= L <= 512 ->
  decode_header {| data_ := sprintf_4d L ++ rest; body_length_ := bl |}
  = (true, {| data_ := sprintf_4d L ++ rest; body_length_ := L |}).
Proof.
  intros HL.
  destruct (sprintf_4d_spec L ltac:(lia)) as (Hlen & Hnul & Hatoi).
  unfold decode_header, strncat, header_length. cbn [data_ body_length_ app].
  rewrite <- Hlen, (strn_chars_all _ _ Hnul), Hatoi.
  rewrite to_size_t_small by lia.
  unfold max_body_length.
  destruct (Z.gtb_spec L 512); [lia | reflexivity].
Qed.

Lemma body_framed (h line rest : list ascii) :
  List.length h = header_length ->
  body {| data_ := h ++ line ++ rest;
          body_length_ := Z.of_nat (List.length line) |} = line.
Proof.
  intros Hh. unfold body. cbn [data_ body_length_].
  rewrite Nat2Z.id, drop_app_length' by (symmetry; exact Hh).
  apply take_app_length.
Qed.

Lemma make_message_data line msg :
  wf msg -> (List.length line <= 512)%nat ->
  make_message line msg =
  {| data_ := sprintf_4d (Z.of_nat (List.length line)) ++ line
                ++ drop (header_length + List.length line) (data_ msg);
     body_length_ := Z.of_nat (List.length line) |}.
Proof.
  intros Hwf Hlen. unfold wf, header_length, max_body_length in Hwf.
  unfold make_message, set_body_length, encode_header, body_length.
  cbn [data_ body_length_]. unfold max_body_length.
  destruct (Z.gtb_spec (Z.of_nat (List.length line)) 512) as [Hgt | _]; [lia |].
  cbn [data_ body_length_].
  destruct (sprintf_4d_spec (Z.of_nat (List.length line)) ltac:(lia)) as (H4 & _ & _).
  rewrite to_int_small by lia.
  f_equal. unfold memcpy, header_length. rewrite Nat2Z.id.
  cbn [take app Nat.add].
  rewrite (take_ge (sprintf_4d _)) by lia.
  rewrite (take_ge line) by lia.
  rewrite drop_app_length'; [reflexivity |].
  rewrite length_take. lia.
Qed.


(** C8.  Silent truncation on encode: setting the body length to [L]
    stores [min L 512]; the call cannot fail and leaves the buffer alone. *)
Theorem set_body_length_truncates (L : Z) (m : chat_message) :
  body_length (set_body_length L m) = Z.min L max_body_length /\
  data (set_body_length L m) = data m.
Proof.
  unfold set_body_length, body_length, data. cbn [body_length_ data_].
  destruct (Z.gtb_spec L max_body_length); cbn [body_length_ data_]; split;
    lia || reflexivity.
Qed.

(** C7.  Decoded-message length invariant: whatever the buffer holds,
    [decode_header] either returns true with a body length in [0, 512],
    or returns false with the body length reset to 0; the length never
    exceeds 512 after it. *)
Theorem decode_header_length_invariant (m : chat_message) :
  ((fst (decode_header m) = true /\
    0 <= body_length (snd (decode_header m)) <= max_body_length) \/
   (fst (decode_header m) = false /\
    body_length (snd (decode_header m)) = 0)) /\
  body_length (snd (decode_header m)) <= max_body_length.
Proof.
  unfold decode_header, body_length. cbn [body_length_].
  pose proof (to_size_t_range (atoi (strncat [] (data_ m) header_length))) as Hr.
  destruct (Z.gtb_spec (to_size_t (atoi (strncat [] (data_ m) header_length)))
              max_body_length) as [Hgt | Hle]; cbn [fst snd body_length_].
  - split; [right; split; reflexivity | unfold max_body_length; lia].
  - split; [left; split; [reflexivity | lia] | exact Hle].
Qed.

(** C1.  Encode/decode round trip: a message built from a body of at
    most 512 bytes (length set, body copied, header encoded) has that
    length, carries that body, and its header decodes successfully to
    the same length, both in place and at a receiver that reads the
    frame's header and then its body into its own message buffer. *)
Theorem encode_decode_roundtrip (line : list ascii) (msg r : chat_message) :
  wf msg -> wf r -> (List.length line <= 512)%nat ->
  let L := Z.of_nat (List.length line) in
  let m := make_message line msg in
  body_length m = L /\ body m = line /\
  decode_header m = (true, m) /\
  frame m = take header_length (data m) ++ line /\
  exists r',
    decode_header (read_into_header (take header_length (frame m)) r) = (true, r') /\
    body_length r' = L /\
    body (read_into_body (drop header_length (frame m)) r') = line /\
    wf (read_into_body (drop header_length (frame m)) r').
Proof.
  intros Hmsg Hr Hlen L m. subst m.
  rewrite (make_message_data line msg Hmsg Hlen). fold L.
  destruct (sprintf_4d_spec L ltac:(lia)) as (H4 & _ & _).
  set (hdr := sprintf_4d L) in *.
  assert (H4' : header_length = List.length hdr) by (symmetry; exact H4).
  set (rest := drop (header_length + List.length line) (data_ msg)).
  assert (Hframe : frame {| data_ := hdr ++ line ++ rest; body_length_ := L |}
                   = hdr ++ line).
  { unfold frame, length, data, header_length, L. cbn [data_ body_length_].
    rewrite app_assoc. apply take_app_length'.
    rewrite length_app, H4. lia. }
  assert (Hhead : take header_length (hdr ++ line ++ rest) = hdr)
    by (apply take_app_length'; exact H4').
  split; [reflexivity |].
  split; [apply body_framed; exact H4 |].
  split; [apply decode_header_printed; lia |].
  split; [unfold data; cbn [data_]; rewrite Hhead; exact Hframe |].
  rewrite Hframe.
  rewrite (take_app_length' hdr line) by exact H4'.
  rewrite (drop_app_length' hdr line) by exact H4'.
  unfold read_into_header, memcpy. cbn [Nat.add data_ body_length_].
  rewrite take_0, (take_ge hdr), H4 by lia. cbn [app].
  eexists. split; [apply decode_header_printed; lia |].
  split; [reflexivity |].
  unfold read_into_body, memcpy. cbn [data_ body_length_].
  rewrite (take_app_length' hdr) by exact H4'.
  rewrite (take_ge line) by lia.
  split; [apply body_framed; exact H4 |].
  unfold wf, header_length, max_body_length in *. cbn [data_].
  rewrite !length_app, !length_drop, length_app, length_drop, Hr.
  change (List.length (sprintf_4d L)) with (List.length hdr). rewrite H4.
  change (Z.to_nat 512) with 512%nat. lia.
Qed.

Lemma encode_decode_roundtrip_witness :
  decode_header (make_message hello blank) = (true, make_message hello blank).
Proof.
  apply (encode_decode_roundtrip hello blank blank);
    [reflexivity | reflexivity | vm_compute; lia].
Defined.

End ChatMessageFacts.

(** ** The room *)

Module ChatRoomFacts.
Import ChatMessage ChatServer Samples.

Implicit Types (st : state) (p q : nat) (msg : chat_message)
  (msgs : list chat_message) (s : chat_session).

(** The eviction loop leaves the newest [max_recent_msgs] entries. *)
Lemma trim_recent_drop (h : list chat_message) :
  trim_recent h = drop (List.length h - max_recent_msgs) h.
Proof.
  induction h as [| x h IH]; [reflexivity |].
  cbn [trim_recent]. unfold max_recent_msgs in *.
  destruct (Nat.ltb_spec 100 (List.length (x :: h))) as [Hlt | Hle];
    cbn [List.length] in *.
  - rewrite IH. replace (S (List.length h) - 100) with (S (List.length h - 100)) by lia.
    reflexivity.
  - replace (S (List.length h) - 100) with 0 by lia. reflexivity.
Qed.

Lemma recent_deliver msg st :
  recent_msgs_ (room_ (deliver msg st))
  = trim_recent (recent_msgs_ (room_ st) ++ [msg]).
Proof. reflexivity. Qed.

Lemma participants_deliver msg st :
  participants_ (room_ (deliver msg st)) = participants_ (room_ st).
Proof. reflexivity. Qed.

Lemma participants_deliver_all msgs st :
  participants_ (room_ (deliver_all msgs st)) = participants_ (room_ st).
Proof.
  revert st; induction msgs as [| msg msgs IH]; intros st; [reflexivity |].
  cbn [deliver_all foldl]. fold (deliver_all msgs (deliver msg st)).
  rewrite IH. apply participants_deliver.
Qed.

Lemma recent_deliver_all msgs :
  forall st,
    List.length (recent_msgs_ (room_ st)) <= max_recent_msgs ->
    recent_msgs_ (room_ (deliver_all msgs st))
    = drop (List.length (recent_msgs_ (room_ st) ++ msgs) - max_recent_msgs)
        (recent_msgs_ (room_ st) ++ msgs).
Proof.
  unfold max_recent_msgs.
  induction msgs as [| msg msgs IH]; intros st Hst.
  - cbn [deliver_all foldl]. rewrite app_nil_r.
    replace (_ - 100) with 0 by lia. reflexivity.
  - cbn [deliver_all foldl]. fold (deliver_all msgs (deliver msg st)).
    pose proof (recent_deliver msg st) as Hd. rewrite trim_recent_drop in Hd.
    unfold max_recent_msgs in Hd.
    set (h := recent_msgs_ (room_ st)) in *.
    set (h1 := recent_msgs_ (room_ (deliver msg st))) in *.
    assert (Hlen1 : List.length h1
                    = List.length h + 1 - (List.length h + 1 - 100)).
    { rewrite Hd, length_drop, length_app. cbn. lia. }
    rewrite IH by (fold h1; lia). fold h1.
    rewrite Hd at 2.
    rewrite <- drop_app_le by (rewrite length_app; cbn; lia).
    rewrite drop_drop, <- app_assoc. cbn [app].
    f_equal. rewrite !length_app, Hlen1. cbn [List.length]. lia.
Qed.

(** C5.  History bound with FIFO eviction: after any run of [deliver]
    calls on a room whose buffer is within its bound (in particular the
    empty buffer of a new room), the buffer is the last 100 of all the
    messages stored and delivered, oldest first; it never holds more
    than 100, and holds exactly 100 once more than 100 have been seen. *)
Theorem history_bound_fifo (msgs : list chat_message) (st : state) :
  List.length (recent_msgs_ (room_ st)) <= max_recent_msgs ->
  let all := recent_msgs_ (room_ st) ++ msgs in
  let recent := recent_msgs_ (room_ (deliver_all msgs st)) in
  recent = drop (List.length all - max_recent_msgs) all /\
  List.length recent <= max_recent_msgs /\
  (max_recent_msgs < List.length all -> List.length recent = max_recent_msgs).
Proof.
  intros Hst all recent. subst recent.
  rewrite (recent_deliver_all msgs st Hst). fold all.
  rewrite length_drop. repeat split; lia.
Qed.

Lemma history_bound_fifo_witness :
  recent_msgs_ (room_ (deliver_all (numbered 150) empty_lobby))
  = drop 50 (numbered 150).
Proof.
  apply (history_bound_fifo (numbered 150) empty_lobby). cbn. lia.
Defined.

(** C9.  Leave idempotence: [leave] removes the session from the
    participant set when it is there, changes nothing when it is not,
    and a second [leave] changes nothing more. *)
Theorem leave_idempotent (p : nat) (st : state) :
  participants_ (room_ (leave p st)) = participants_ (room_ st) ∖ {[p]} /\
  (p ∉ participants_ (room_ (leave p st))) /\
  ((p ∉ participants_ (room_ st)) -> leave p st = st) /\
  leave p (leave p st) = leave p st.
Proof.
  destruct st as [[members history] heap]. unfold leave.
  cbn [room_ participants_ recent_msgs_ sessions].
  split; [reflexivity |]. split; [| split].
  - rewrite elem_of_difference, elem_of_singleton. tauto.
  - intros Hp. do 2 f_equal. apply difference_disjoint_L.
    apply disjoint_singleton_r. exact Hp.
  - do 2 f_equal. apply set_eq. intros q.
    rewrite !elem_of_difference. tauto.
Qed.

Lemma leave_idempotent_witness : leave 2 lobby = lobby.
Proof.
  destruct (leave_idempotent 2 lobby) as (_ & _ & Habsent & _).
  apply Habsent. cbn. rewrite elem_of_singleton. discriminate.
Defined.

(** [chat_session::deliver] appends to the queue, whether or not it
    starts a write. *)
Lemma write_msgs_do_write s : write_msgs_ (do_write s) = write_msgs_ s.
Proof. unfold do_write. destruct (write_msgs_ s) eqn:Hq; cbn; exact Hq. Qed.

Lemma write_msgs_session_deliver msg s :
  write_msgs_ (session_deliver msg s) = write_msgs_ s ++ [msg].
Proof.
  unfold session_deliver.
  destruct (negb (negb (is_empty (write_msgs_ s))));
    [rewrite write_msgs_do_write |]; reflexivity.
Qed.

Lemma write_msgs_replay msgs :
  forall s,
    write_msgs_ (foldl (fun s msg => session_deliver msg s) s msgs)
    = write_msgs_ s ++ msgs.
Proof.
  induction msgs as [| msg msgs IH]; intros s; cbn [foldl].
  - symmetry. apply app_nil_r.
  - rewrite IH, write_msgs_session_deliver, <- app_assoc. reflexivity.
Qed.

(** The loop over the participant set reaches each member once. *)
Lemma fanout_lookup msg (l : list nat) (h : gmap nat chat_session) p :
  NoDup l ->
  foldr (deliver_to msg) h l !! p
  = if decide (p ∈ l) then session_deliver msg <$> h !! p else h !! p.
Proof.
  induction 1 as [| q l Hq _ IH]; cbn [foldr].
  - rewrite decide_False by apply not_elem_of_nil. reflexivity.
  - unfold deliver_to at 1. rewrite lookup_alter.
    destruct (decide (q = p)) as [-> | Hne].
    + rewrite IH, decide_False by exact Hq.
      rewrite decide_True by apply list_elem_of_here. reflexivity.
    + rewrite IH. destruct (decide (p ∈ l)) as [Hin | Hout].
      * rewrite decide_True by (apply list_elem_of_further; exact Hin). reflexivity.
      * rewrite decide_False; [reflexivity |].
        rewrite elem_of_cons. intros [-> | Hin]; [congruence | exact (Hout Hin)].
Qed.

Lemma sessions_deliver msg st p :
  sessions (deliver msg st) !! p
  = if decide (p ∈ participants_ (room_ st))
    then session_deliver msg <$> sessions st !! p
    else sessions st !! p.
Proof.
  unfold deliver, set_fold. cbn [sessions compose].
  rewrite fanout_lookup by apply NoDup_elements.
  destruct (decide (p ∈ elements (participants_ (room_ st)))) as [Hin | Hout].
  - rewrite decide_True by (apply elem_of_elements; exact Hin). reflexivity.
  - rewrite decide_False; [reflexivity |].
    intros Hin. apply Hout, elem_of_elements, Hin.
Qed.

(** The replay loop of [join] only touches the joining session. *)
Lemma replay_lookup p msgs :
  forall (h : gmap nat chat_session) q,
    foldl (fun h msg => deliver_to msg p h) h msgs !! q
    = if decide (p = q)
      then (fun s => foldl (fun s msg => session_deliver msg s) s msgs) <$> h !! q
      else h !! q.
Proof.
  induction msgs as [| msg msgs IH]; intros h q; cbn [foldl].
  - destruct (decide (p = q)); [destruct (h !! q) |]; reflexivity.
  - rewrite IH. unfold deliver_to. rewrite lookup_alter.
    destruct (decide (p = q)) as [-> | Hne]; [| reflexivity].
    destruct (h !! q); reflexivity.
Qed.

Lemma sessions_join p st q :
  sessions (join p st) !! q
  = if decide (p = q)
    then (fun s => foldl (fun s msg => session_deliver msg s) s
                     (recent_msgs_ (room_ st))) <$> sessions st !! q
    else sessions st !! q.
Proof.
  unfold join. cbn [sessions]. apply replay_lookup.
Qed.

Lemma sessions_deliver_all msgs :
  forall st p s,
    p ∈ participants_ (room_ st) ->
    sessions st !! p = Some s ->
    exists s', sessions (deliver_all msgs st) !! p = Some s' /\
               write_msgs_ s' = write_msgs_ s ++ msgs.
Proof.
  induction msgs as [| msg msgs IH]; intros st p s Hp Hs.
  - exists s. split; [exact Hs | symmetry; apply app_nil_r].
  - cbn [deliver_all foldl]. fold (deliver_all msgs (deliver msg st)).
    destruct (IH (deliver msg st) p (session_deliver msg s)) as (s' & Hs' & Hq).
    + rewrite participants_deliver. exact Hp.
    + rewrite sessions_deliver, decide_True, Hs by exact Hp. reflexivity.
    + exists s'. split; [exact Hs' |].
      rewrite Hq, write_msgs_session_deliver, <- app_assoc. reflexivity.
Qed.

(** C4.  Join replay completeness and order: [join] puts the session in
    the participant set and appends the stored history, in its order,
    to that session's queue and to no other; whatever is delivered
    afterwards is queued behind the replayed history. *)
Theorem join_replay (p : nat) (st : state) (s : chat_session)
    (later : list chat_message) :
  sessions st !! p = Some s ->
  let history := recent_msgs_ (room_ st) in
  participants_ (room_ (join p st)) = {[p]} ∪ participants_ (room_ st) /\
  recent_msgs_ (room_ (join p st)) = history /\
  (exists s', sessions (join p st) !! p = Some s' /\
              write_msgs_ s' = write_msgs_ s ++ history) /\
  (forall q, q <> p -> sessions (join p st) !! q = sessions st !! q) /\
  (exists s'', sessions (deliver_all later (join p st)) !! p = Some s'' /\
               write_msgs_ s'' = write_msgs_ s ++ history ++ later).
Proof.
  intros Hs history.
  assert (Hjoin : sessions (join p st) !! p
                  = Some (foldl (fun s msg => session_deliver msg s) s history)).
  { rewrite sessions_join, decide_True, Hs by reflexivity. reflexivity. }
  split; [reflexivity |]. split; [reflexivity |]. split; [| split].
  - eexists. split; [exact Hjoin | apply write_msgs_replay].
  - intros q Hq. rewrite sessions_join, decide_False by congruence. reflexivity.
  - assert (Hin : p ∈ participants_ (room_ (join p st)))
      by (cbn; apply elem_of_union_l, elem_of_singleton; reflexivity).
    destruct (sessions_deliver_all later (join p st) p _ Hin Hjoin)
      as (s'' & Hs'' & Hq).
    exists s''. split; [exact Hs'' |].
    rewrite Hq, write_msgs_replay, <- app_assoc. reflexivity.
Qed.

Lemma join_replay_witness :
  exists s', sessions (join 2 lobby) !! 2 = Some s' /\
             write_msgs_ s' = write_msgs_ new_session ++ history3.
Proof.
  apply (join_replay 2 lobby new_session [msg_of "four"]). reflexivity.
Defined.

(** C10.  A message delivered while nobody is in the room reaches no
    session but is stored as the newest entry of the history, so a
    session that joins afterwards finds it at the end of its replay. *)
Theorem deliver_to_empty_room_replayed (msg : chat_message) (st : state)
    (p : nat) (s : chat_session) :
  participants_ (room_ st) = ∅ ->
  sessions st !! p = Some s ->
  let st1 := deliver msg st in
  sessions st1 = sessions st /\
  (exists older, recent_msgs_ (room_ st1) = older ++ [msg] /\
                 List.length older < max_recent_msgs) /\
  (exists s', sessions (join p st1) !! p = Some s' /\
              write_msgs_ s' = write_msgs_ s ++ recent_msgs_ (room_ st1) /\
              msg ∈ write_msgs_ s').
Proof.
  intros Hempty Hs st1.
  assert (Hheap : sessions st1 = sessions st).
  { apply map_eq. intros q. subst st1.
    rewrite sessions_deliver, decide_False; [reflexivity |].
    rewrite Hempty. apply not_elem_of_empty. }
  assert (Hrecent : exists older, recent_msgs_ (room_ st1) = older ++ [msg] /\
                                  List.length older < max_recent_msgs).
  { subst st1. rewrite recent_deliver, trim_recent_drop.
    unfold max_recent_msgs. rewrite length_app. cbn [List.length].
    exists (drop (List.length (recent_msgs_ (room_ st)) + 1 - 100)
              (recent_msgs_ (room_ st))).
    split; [apply drop_app_le; lia | rewrite length_drop; lia]. }
  split; [exact Hheap |]. split; [exact Hrecent |].
  destruct Hrecent as (older & Hold & _).
  eexists. split; [| split].
  - rewrite sessions_join, decide_True, Hheap, Hs by reflexivity. reflexivity.
  - apply write_msgs_replay.
  - rewrite write_msgs_replay, Hold, !elem_of_app, list_elem_of_singleton.
    right; right; reflexivity.
Qed.

Lemma deliver_to_empty_room_replayed_witness :
  sessions (deliver (msg_of "one") empty_lobby) = sessions empty_lobby.
Proof.
  apply (deliver_to_empty_room_replayed (msg_of "one") empty_lobby 2 new_session);
    reflexivity.
Defined.

End ChatRoomFacts.

(** ** The session's read side *)

Module ChatSessionFacts.
Import CLib CLibFacts ChatMessage ChatMessageFacts ChatServer ChatRoomFacts
  Samples.

Lemma strn_chars_app l rest n :
  n <= List.length l -> strn_chars (l ++ rest) n = strn_chars l n.
Proof.
  revert l; induction n as [| n IH]; intros [| c l] Hn; cbn in *; try lia.
  - destruct rest; reflexivity.
  - reflexivity.
  - destruct (Ascii.eqb c zero); [reflexivity |]. rewrite IH by lia. reflexivity.
Qed.

Lemma parsed_header_read bytes m :
  List.length bytes = header_length ->
  parsed_header (read_into_header bytes m) = atoi (strncat [] bytes header_length).
Proof.
  intros Hlen. unfold parsed_header, read_into_header, strncat, memcpy.
  cbn [data_ app]. rewrite take_0, take_ge by lia. cbn [app].
  rewrite strn_chars_app by lia. reflexivity.
Qed.

Lemma decode_header_reject m :
  (512 < parsed_header m)%Z ->
  decode_header m = (false, {| data_ := data_ m; body_length_ := 0 |}).
Proof.
  intros Hbig. pose proof (parsed_header_bound m) as Hb.
  unfold decode_header. fold (parsed_header m). cbn [body_length_ data_].
  rewrite to_size_t_small by lia. unfold max_body_length.
  destruct (Z.gtb_spec (parsed_header m) 512); [reflexivity | lia].
Qed.

Lemma sessions_update p f st q :
  sessions (update p f st) !! q
  = if decide (p = q) then f <$> sessions st !! q else sessions st !! q.
Proof.
  unfold update. cbn [sessions]. rewrite lookup_alter.
  destruct (decide (p = q)) as [-> |]; reflexivity.
Qed.

Lemma sessions_release p st q :
  q <> p -> sessions (release p st) !! q = sessions st !! q.
Proof.
  intros Hq. unfold release.
  destruct (sessions st !! p) as [s |]; [| reflexivity].
  destruct (decide (p ∈ participants_ (room_ st))); [reflexivity |].
  destruct (unreferenced s); [| reflexivity].
  cbn [sessions]. apply lookup_delete_ne. congruence.
Qed.

Lemma room_release p st : room_ (release p st) = room_ st.
Proof.
  unfold release.
  destruct (sessions st !! p) as [s |]; [| reflexivity].
  destruct (decide (p ∈ participants_ (room_ st))); [reflexivity |].
  destruct (unreferenced s); reflexivity.
Qed.

(** A session made by [do_accept] is in the room, holds the replayed
    history and waits for its first header. *)
Lemma on_accept_session p buf st :
  exists s', sessions (on_accept p buf st) !! p = Some s' /\
             write_msgs_ s' = recent_msgs_ (room_ st) /\
             read_ (socket_ s') = ReadHeader /\
             p ∈ participants_ (room_ (on_accept p buf st)).
Proof.
  unfold on_accept, start.
  eexists. split; [| split; [| split]].
  - rewrite sessions_update, decide_True by reflexivity.
    rewrite sessions_join, decide_True by reflexivity.
    cbn [sessions]. rewrite lookup_insert_eq. reflexivity.
  - unfold do_read_header. cbn [with_socket write_msgs_ room_].
    rewrite write_msgs_replay. reflexivity.
  - unfold do_read_header, with_socket, async_read. reflexivity.
  - cbn. apply elem_of_union_l, elem_of_singleton. reflexivity.
Qed.

(** A session still in the room that has read a whole body hands its
    own message to [deliver] and so queues it for itself as well. *)
Lemma on_read_body_echo p st s bytes :
  sessions st !! p = Some s ->
  p ∈ participants_ (room_ st) ->
  exists s', sessions (on_read_body p false bytes st) !! p = Some s' /\
             write_msgs_ s'
             = write_msgs_ s ++ [read_into_body bytes (read_msg_ s)].
Proof.
  intros Hs Hp. unfold on_read_body.
  set (f := fun s => with_socket (async_read NoRead)
                       (with_read_msg (read_into_body bytes) s)).
  rewrite sessions_update, decide_True, Hs by reflexivity.
  cbn [fmap option_fmap option_map negb].
  set (m := read_msg_ (f s)).
  set (st2 := update p do_read_header (deliver m (update p f st))).
  assert (Hp2 : sessions st2 !! p
                = Some (do_read_header (session_deliver m (f s)))).
  { subst st2. rewrite sessions_update, decide_True by reflexivity.
    rewrite sessions_deliver, decide_True by exact Hp.
    rewrite sessions_update, decide_True, Hs by reflexivity. reflexivity. }
  assert (Hrel : release p st2 = st2).
  { unfold release. rewrite Hp2, decide_True by exact Hp. reflexivity. }
  rewrite Hrel. eexists. split; [exact Hp2 |].
  unfold do_read_header. cbn [with_socket write_msgs_].
  rewrite write_msgs_session_deliver. reflexivity.
Qed.

(** C3.  Fan-out completeness: [deliver] appends the message once to the
    outbound queue of every session in the participant set and leaves
    every other session as it was; the set itself is unchanged.  The
    session a message came from is served like any other member: when
    its body read completes, its own queue receives the message. *)
Theorem deliver_fanout (msg : chat_message) (st : state) (p : nat)
    (s : chat_session) :
  sessions st !! p = Some s ->
  (p ∈ participants_ (room_ st) ->
     sessions (deliver msg st) !! p = Some (session_deliver msg s) /\
     write_msgs_ (session_deliver msg s) = write_msgs_ s ++ [msg]) /\
  ((p ∉ participants_ (room_ st)) -> sessions (deliver msg st) !! p = Some s) /\
  participants_ (room_ (deliver msg st)) = participants_ (room_ st) /\
  (p ∈ participants_ (room_ st) ->
     forall bytes,
     exists s', sessions (on_read_body p false bytes st) !! p = Some s' /\
                write_msgs_ s'
                = write_msgs_ s ++ [read_into_body bytes (read_msg_ s)]).
Proof.
  intros Hs. rewrite sessions_deliver, Hs.
  split; [| split; [| split]].
  - intros Hp. rewrite decide_True by exact Hp.
    split; [reflexivity | apply write_msgs_session_deliver].
  - intros Hp. rewrite decide_False by exact Hp. reflexivity.
  - reflexivity.
  - intros Hp bytes. apply on_read_body_echo; assumption.
Qed.

Lemma deliver_fanout_witness :
  sessions (deliver (msg_of "four") lobby) !! 1
  = Some (session_deliver (msg_of "four") new_session).
Proof.
  apply (deliver_fanout (msg_of "four") lobby 1 new_session); [reflexivity |].
  cbn. apply elem_of_singleton. reflexivity.
Defined.

(** C2.  Oversized rejection: when the four header bytes a session has
    read parse to more than 512, [decode_header] returns false with the
    body length reset to 0, and the handler takes the session out of the
    room without starting a body read or delivering anything: the
    history and all other sessions are untouched, and the session is
    destroyed at once unless a write of its own is still outstanding. *)
Theorem oversized_header_rejected (p : nat) (st : state) (s : chat_session)
    (bytes : list ascii) :
  sessions st !! p = Some s ->
  List.length bytes = header_length ->
  (max_body_length < atoi (strncat [] bytes header_length))%Z ->
  let m := read_into_header bytes (read_msg_ s) in
  let st' := on_read_header p false bytes st in
  fst (decode_header m) = false /\
  body_length (snd (decode_header m)) = 0%Z /\
  participants_ (room_ st') = participants_ (room_ st) ∖ {[p]} /\
  (p ∉ participants_ (room_ st')) /\
  recent_msgs_ (room_ st') = recent_msgs_ (room_ st) /\
  (forall q, q <> p -> sessions st' !! q = sessions st !! q) /\
  match sessions st' !! p with
  | Some s' => writes_ (socket_ s) <> [] /\
               read_ (socket_ s') = NoRead /\
               body_length (read_msg_ s') = 0%Z /\
               write_msgs_ s' = write_msgs_ s
  | None => writes_ (socket_ s) = []
  end.
Proof.
  intros Hs Hlen Hbig m st'.
  assert (Hrej : decode_header m
                 = (false, {| data_ := data_ m; body_length_ := 0 |})).
  { apply decode_header_reject. subst m. rewrite parsed_header_read by exact Hlen.
    exact Hbig. }
  set (f := fun s => with_socket (async_read NoRead)
                       (with_read_msg (read_into_header bytes) s)).
  set (m0 := {| data_ := data_ m; body_length_ := 0 |}) in *.
  set (st2 := leave p (update p (with_read_msg (fun _ => m0)) (update p f st))).
  assert (Hst' : st' = release p st2).
  { subst st' st2. unfold on_read_header. fold f.
    rewrite sessions_update, decide_True, Hs by reflexivity.
    cbn [fmap option_fmap option_map f with_socket with_read_msg read_msg_].
    fold m. rewrite Hrej. reflexivity. }
  assert (Hp2 : sessions st2 !! p = Some (with_read_msg (fun _ => m0) (f s))).
  { subst st2. unfold leave. cbn [sessions].
    rewrite !sessions_update, !decide_True, Hs by reflexivity. reflexivity. }
  assert (Hout : p ∉ participants_ (room_ st2)).
  { subst st2. cbn. rewrite elem_of_difference, elem_of_singleton. tauto. }
  rewrite Hst', room_release.
  split; [rewrite Hrej; reflexivity |].
  split; [rewrite Hrej; reflexivity |].
  split; [reflexivity |].
  split; [exact Hout |].
  split; [reflexivity |].
  split.
  { intros q Hq. rewrite sessions_release by exact Hq.
    subst st2. unfold leave. cbn [sessions].
    rewrite !sessions_update, !decide_False by congruence. reflexivity. }
  unfold release. rewrite Hp2, decide_False by exact Hout.
  unfold unreferenced. cbn [socket_ with_read_msg f with_socket async_read writes_ read_].
  rewrite andb_true_r.
  destruct (writes_ (socket_ s)) as [| buf rest] eqn:Hw; cbn [is_empty sessions].
  - rewrite lookup_delete_eq. reflexivity.
  - rewrite Hp2. repeat split. discriminate.
Qed.

Lemma oversized_header_rejected_witness :
  1 ∉ participants_ (room_ (on_read_header 1 false oversized lobby)).
Proof.
  apply (oversized_header_rejected 1 lobby new_session oversized);
    [reflexivity | reflexivity | reflexivity].
Defined.

End ChatSessionFacts.

(** ** The session's write side *)

Module WriteSideFacts.
Import ChatMessage ChatServer ChatRoomFacts ChatSessionFacts Samples.

Lemma enqueued_snoc evs e :
  enqueued (evs ++ [e])
  = enqueued evs ++ match e with Enqueue m => [m] | Completed _ _ => [] end.
Proof. unfold enqueued. rewrite omap_app. destruct e; reflexivity. Qed.

Lemma completions_snoc evs e :
  completions (evs ++ [e])
  = completions evs + match e with Enqueue _ => 0 | Completed _ _ => 1 end.
Proof.
  unfold completions. rewrite List.filter_app, length_app. destruct e; reflexivity.
Qed.

Lemma failed_snoc evs e :
  failed (evs ++ [e])
  = failed evs || match e with Completed true _ => true | _ => false end.
Proof.
  unfold failed. rewrite existsb_app. cbn [existsb]. rewrite orb_false_r.
  reflexivity.
Qed.

Lemma write_inv_step evs s e s' :
  write_inv evs s -> write_step s e s' -> write_inv (evs ++ [e]) s'.
Proof.
  intros Hinv Hstep.
  destruct Hstep as [s msg | s ec n buf rest Hbuf].
  - (* deliver *)
    destruct Hinv as [done Henq Hok Hcnt Hq Hw Hsent
                     | done front queue Henq Hok Hcnt Hq Hw Hsent
                     | done front queue k Henq Hbad Hq Hw Hsent].
    + apply (inv_writing _ _ done msg []);
        rewrite ?enqueued_snoc, ?failed_snoc, ?completions_snoc, ?Henq, ?Hok, ?Hcnt;
        unfold session_deliver, do_write, with_write_msgs, with_socket, async_write;
        rewrite ?Hq; cbn; rewrite ?Hw, ?Hsent; reflexivity || lia.
    + apply (inv_writing _ _ done front (queue ++ [msg]));
        rewrite ?enqueued_snoc, ?failed_snoc, ?completions_snoc, ?Henq, ?Hok, ?Hcnt;
        unfold session_deliver, with_write_msgs;
        rewrite ?Hq; cbn; rewrite ?Hw, ?Hsent, <- ?app_assoc; reflexivity || lia.
    + apply (inv_broken _ _ done front (queue ++ [msg]) k);
        rewrite ?enqueued_snoc, ?failed_snoc, ?Henq, ?Hbad;
        unfold session_deliver, with_write_msgs;
        rewrite ?Hq; cbn; rewrite ?Hw, ?Hsent, <- ?app_assoc; reflexivity.
  - (* completion of the outstanding write *)
    destruct Hinv as [done Henq Hok Hcnt Hq Hw Hsent
                     | done front queue Henq Hok Hcnt Hq Hw Hsent
                     | done front queue k Henq Hbad Hq Hw Hsent];
      [congruence | | congruence].
    rewrite Hw in Hbuf. injection Hbuf as <- <-.
    destruct ec.
    + (* the write failed: the handler leaves the queue alone *)
      apply (inv_broken _ _ done front queue n);
        rewrite ?enqueued_snoc, ?failed_snoc, ?Henq, ?app_nil_r;
        unfold write_handler, with_socket, complete_write; cbn;
        rewrite ?Hw, ?Hsent, ?Hq, ?orb_true_r; reflexivity.
    + destruct queue as [| next queue].
      * apply (inv_idle _ _ (done ++ [front]));
          rewrite ?enqueued_snoc, ?failed_snoc, ?completions_snoc, ?Henq, ?Hok, ?Hcnt,
            ?app_nil_r, ?length_app;
          unfold write_handler, with_write_msgs, with_socket, complete_write, pop_front;
          cbn; rewrite ?Hw, ?Hq; cbn; rewrite ?Hsent, ?map_app, ?concat_app; cbn;
          rewrite ?app_nil_r; reflexivity.
      * apply (inv_writing _ _ (done ++ [front]) next queue);
          rewrite ?enqueued_snoc, ?failed_snoc, ?completions_snoc, ?Henq, ?Hok, ?Hcnt,
            ?app_nil_r, ?length_app, <- ?app_assoc;
          unfold write_handler, do_write, with_write_msgs, with_socket, complete_write,
            async_write, pop_front;
          cbn; rewrite ?Hw, ?Hq; cbn; rewrite ?Hw, ?Hsent, ?map_app, ?concat_app; cbn;
          rewrite ?app_nil_r; reflexivity.
Qed.

Lemma write_inv_run s0 evs s :
  fresh s0 -> write_run s0 evs s -> write_inv evs s.
Proof.
  intros (Hq & Hw & Hsent) Hrun.
  induction Hrun as [s | s evs s1 e s2 _ IH Hstep].
  - apply (inv_idle _ _ []); try reflexivity; assumption.
  - eapply write_inv_step; [apply IH; assumption | exact Hstep].
Qed.

Lemma write_run_cons s e s1 evs s2 :
  write_step s e s1 -> write_run s1 evs s2 -> write_run s (e :: evs) s2.
Proof.
  intros Hstep Hrun.
  induction Hrun as [s1 | s1 evs s2 e' s3 _ IH Hstep'].
  - apply (run_snoc s [] s e s1); [apply run_nil | exact Hstep].
  - apply (run_snoc s (e :: evs) s2 e' s3); [apply IH; exact Hstep | exact Hstep'].
Qed.

Lemma write_next_step e s s' : write_next e s = Some s' -> write_step s e s'.
Proof.
  destruct e as [msg | ec n]; cbn [write_next].
  - intros [= <-]. apply step_enqueue.
  - destruct (writes_ (socket_ s)) as [| buf rest] eqn:Hw; [discriminate |].
    intros [= <-]. eapply step_completed. exact Hw.
Qed.

(** Every trace the function runs is a run of the transition system. *)
Lemma write_exec_run evs :
  forall s s', write_exec evs s = Some s' -> write_run s evs s'.
Proof.
  induction evs as [| e evs IH]; intros s s'; cbn [write_exec].
  - intros [= <-]. apply run_nil.
  - destruct (write_next e s) as [s1 |] eqn:Hnext; [| discriminate].
    intros Hexec. eapply write_run_cons; [apply write_next_step; exact Hnext |].
    apply IH. exact Hexec.
Qed.

(** *** The server's handlers drive a session's write side by the steps
    of its transition system *)

Lemma deliver_write_step msg st p s :
  sessions st !! p = Some s ->
  p ∈ participants_ (room_ st) ->
  exists s', sessions (deliver msg st) !! p = Some s' /\
             write_step s (Enqueue msg) s'.
Proof.
  intros Hs Hp. exists (session_deliver msg s). split; [| apply step_enqueue].
  rewrite sessions_deliver, decide_True, Hs by exact Hp. reflexivity.
Qed.

Lemma replay_write_run msgs :
  forall s, write_run s (map Enqueue msgs)
              (foldl (fun s msg => session_deliver msg s) s msgs).
Proof.
  induction msgs as [| msg msgs IH]; intros s; cbn [map foldl].
  - apply run_nil.
  - eapply write_run_cons; [apply step_enqueue | apply IH].
Qed.

Lemma join_write_run p st s :
  sessions st !! p = Some s ->
  exists s', sessions (join p st) !! p = Some s' /\
             write_run s (map Enqueue (recent_msgs_ (room_ st))) s'.
Proof.
  intros Hs. eexists. split; [| apply replay_write_run].
  rewrite sessions_join, decide_True, Hs by reflexivity. reflexivity.
Qed.

(** When a write of session [p] completes, the session either takes the
    completion step or, having failed or drained with nothing else
    referring to it, is destroyed. *)
Lemma on_write_step p ec n st s buf rest :
  sessions st !! p = Some s ->
  writes_ (socket_ s) = buf :: rest ->
  match sessions (on_write p ec n st) !! p with
  | Some s' => write_step s (Completed ec n) s'
  | None => p ∉ participants_ (room_ (on_write p ec n st))
  end.
Proof.
  intros Hs Hw. unfold on_write.
  set (st2 := update p (write_handler ec)
                (update p (with_socket (complete_write ec n)) st)).
  set (st3 := if negb ec then st2 else leave p st2).
  assert (H3 : sessions st3 !! p
               = Some (write_handler ec (with_socket (complete_write ec n) s))).
  { assert (H2 : sessions st2 !! p
                 = Some (write_handler ec (with_socket (complete_write ec n) s))).
    { subst st2. rewrite !sessions_update, !decide_True, Hs by reflexivity.
      reflexivity. }
    subst st3. destruct ec; exact H2. }
  rewrite room_release. unfold release. rewrite H3.
  destruct (decide (p ∈ participants_ (room_ st3))) as [Hin | Hout].
  - rewrite H3. eapply step_completed. exact Hw.
  - destruct (unreferenced _); cbn [sessions].
    + rewrite lookup_delete_eq. exact Hout.
    + rewrite H3. eapply step_completed. exact Hw.
Qed.

(** C6.  Per-session write ordering and single outstanding write: in
    every state a new session reaches through calls of [deliver] and
    completions of its outstanding write, at most one write is
    outstanding, and the bytes sent are a prefix of the frames of the
    delivered messages in delivery order.  As long as no write has
    failed, the bytes sent are exactly the frames of the messages whose
    writes have completed, the rest is queued in order, and a write is
    outstanding exactly for the front of a non-empty queue.  [deliver]
    on a non-empty queue starts no write. *)
Theorem write_order_single_outstanding (s0 s : chat_session)
    (evs : list write_event) :
  fresh s0 -> write_run s0 evs s ->
  List.length (writes_ (socket_ s)) <= 1 /\
  sent_ (socket_ s) `prefix_of` concat (map frame (enqueued evs)) /\
  (failed evs = false ->
     sent_ (socket_ s)
     = concat (map frame (take (completions evs) (enqueued evs))) /\
     write_msgs_ s = drop (completions evs) (enqueued evs) /\
     writes_ (socket_ s)
     = match write_msgs_ s with front :: _ => [frame front] | [] => [] end) /\
  (forall msg, write_msgs_ s <> [] ->
     socket_ (session_deliver msg s) = socket_ s).
Proof.
  intros Hfresh Hrun.
  pose proof (write_inv_run s0 evs s Hfresh Hrun) as Hinv.
  split; [| split; [| split]].
  - destruct Hinv as [done _ _ _ _ -> _ | done front queue _ _ _ _ -> _
                     | done front queue n _ _ _ -> _]; cbn; lia.
  - destruct Hinv as [done -> _ _ _ _ -> | done front queue -> _ _ _ _ ->
                     | done front queue n -> _ _ _ ->].
    + reflexivity.
    + rewrite map_app, concat_app. apply prefix_app_r. reflexivity.
    + rewrite map_app, concat_app. apply prefix_app.
      cbn [map concat]. apply prefix_app_r, prefix_take.
  - intros Hok.
    destruct Hinv as [done Henq _ Hcnt Hq Hw Hsent
                     | done front queue Henq _ Hcnt Hq Hw Hsent
                     | done front queue n _ Hbad _ _ _]; [| | congruence].
    + rewrite Hq, Hw, Hsent, Hcnt, Henq, take_ge, drop_ge by lia.
      repeat split.
    + rewrite Hq, Hw, Hsent, Hcnt, Henq, take_app_length, drop_app_length.
      repeat split.
  - intros msg Hne. unfold session_deliver.
    destruct (write_msgs_ s) as [| front queue]; [congruence | reflexivity].
Qed.

Lemma three_then_two_run :
  write_run new_session three_then_two after_three_then_two.
Proof. apply write_exec_run. reflexivity. Qed.

Lemma write_order_single_outstanding_witness :
  sent_ (socket_ after_three_then_two)
    `prefix_of` concat (map frame (enqueued three_then_two)).
Proof.
  apply (write_order_single_outstanding new_session after_three_then_two
           three_then_two);
    [repeat split | exact three_then_two_run].
Defined.

End WriteSideFacts.


(** * Further properties of the codec *)

Module CodecCoverage.
Import CLib CLibFacts ChatMessage ChatMessageFacts Samples.

Local Open Scope Z_scope.




Lemma decode_header_value m v :
  parsed_header m = v -> 0 <= v <= 512 ->
  decode_header m = (true, {| data_ := data_ m; body_length_ := v |}).
Proof.
  intros Hv Hr. unfold decode_header. fold (parsed_header m). rewrite Hv.
  cbn [body_length_ data_]. rewrite to_size_t_small by lia.
  unfold max_body_length. destruct (Z.gtb_spec v 512); [lia | reflexivity].
Qed.

(** X1.  [decode_header] accepts a header exactly when the number [atoi]
    reads from it lies in [0, 512], and then stores that number; a
    negative number is rejected like an oversized one, because it
    becomes a huge [size_t]. *)
Theorem decode_header_accepts_iff (m : chat_message) :
  (fst (decode_header m) = true <-> 0 <= parsed_header m <= 512) /\
  (0 <= parsed_header m <= 512 ->
     decode_header m
     = (true, {| data_ := data_ m; body_length_ := parsed_header m |})) /\
  (parsed_header m < 0 ->
     decode_header m = (false, {| data_ := data_ m; body_length_ := 0 |})).
Proof.
  split; [apply decode_header_true_iff |]. split.
  - intros Hr. apply decode_header_value; [reflexivity | exact Hr].
  - intros Hneg. pose proof (parsed_header_bound m) as Hb.
    unfold decode_header. fold (parsed_header m). cbn [body_length_ data_].
    unfold to_size_t, max_body_length.
    replace (parsed_header m mod 2 ^ 64) with (parsed_header m + 2 ^ 64)
      by (apply Z.mod_unique with (q := -1); lia).
    destruct (Z.gtb_spec (parsed_header m + 2 ^ 64) 512); [reflexivity | lia].
Qed.

Lemma decode_header_accepts_iff_witness :
  decode_header {| data_ := String.list_ascii_of_string " -12"; body_length_ := 7 |}
  = (false, {| data_ := String.list_ascii_of_string " -12"; body_length_ := 0 |}).
Proof.
  apply (decode_header_accepts_iff
           {| data_ := String.list_ascii_of_string " -12"; body_length_ := 7 |}).
  reflexivity.
Defined.



Lemma encode_header_data m :
  wf m -> 0 <= body_length_ m <= 512 ->
  encode_header m
  = {| data_ := sprintf_4d (body_length_ m) ++ drop header_length (data_ m);
       body_length_ := body_length_ m |}.
Proof.
  intros Hwf Hr. unfold encode_header, memcpy, header_length.
  destruct (sprintf_4d_spec (body_length_ m) ltac:(lia)) as (H4 & _ & _).
  rewrite to_int_small by lia.
  rewrite take_0, take_ge by lia. reflexivity.
Qed.

(** X3.  [encode_header] on a message whose length is in range writes
    only the four header bytes: the buffer keeps its size, the body and
    the length are untouched, the new header decodes to the length, and
    encoding a second time changes nothing. *)
Theorem encode_header_only_header (m : chat_message) :
  wf m -> 0 <= body_length_ m <= 512 ->
  wf (encode_header m) /\
  body_length (encode_header m) = body_length m /\
  body (encode_header m) = body m /\
  drop header_length (data (encode_header m)) = drop header_length (data m) /\
  decode_header (encode_header m) = (true, encode_header m) /\
  encode_header (encode_header m) = encode_header m.
Proof.
  intros Hwf Hr.
  destruct (sprintf_4d_spec (body_length_ m) ltac:(lia)) as (H4 & _ & _).
  assert (Hdrop : drop header_length
                    (sprintf_4d (body_length_ m) ++ drop header_length (data_ m))
                  = drop header_length (data_ m))
    by (apply drop_app_length'; symmetry; exact H4).
  assert (Hwf' : wf (encode_header m)).
  { rewrite (encode_header_data m Hwf Hr).
    unfold wf, header_length, max_body_length in *. cbn [data_].
    rewrite length_app, length_drop, H4, Hwf. lia. }
  split; [exact Hwf' |].
  rewrite (encode_header_data m Hwf Hr) in *.
  split; [reflexivity |].
  split; [unfold body; cbn [data_ body_length_]; rewrite Hdrop; reflexivity |].
  split; [unfold data; cbn [data_]; exact Hdrop |].
  split; [apply decode_header_printed; exact Hr |].
  rewrite (encode_header_data _ Hwf' Hr). cbn [data_ body_length_].
  rewrite Hdrop. reflexivity.
Qed.

Lemma encode_header_only_header_witness :
  body (encode_header (make_message hello blank)) = body (make_message hello blank).
Proof.
  apply (encode_header_only_header (make_message hello blank));
    [reflexivity | vm_compute; split; discriminate].
Defined.




(** X5.  The bytes handed to [async_write] for a well-formed message are
    its four header bytes followed by its body, [4 + body_length] bytes
    in all, and never more than the 516 bytes of the buffer. *)
Theorem frame_header_body (m : chat_message) :
  wf m -> 0 <= body_length_ m <= 512 ->
  frame m = take header_length (data m) ++ body m /\
  Z.of_nat (List.length (frame m)) = length m /\
  (List.length (frame m) <= List.length (data m))%nat.
Proof.
  intros Hwf Hr. unfold wf, header_length, max_body_length in Hwf.
  change (Z.to_nat 512) with 512%nat in Hwf.
  unfold frame, body, length, data, header_length.
  replace (Z.to_nat (Z.of_nat 4 + body_length_ m))
    with (4 + Z.to_nat (body_length_ m))%nat by lia.
  split; [symmetry; apply take_take_drop |].
  rewrite length_take, Hwf. split; lia.
Qed.

Lemma frame_header_body_witness :
  frame (make_message hello blank)
  = take header_length (data (make_message hello blank))
      ++ body (make_message hello blank).
Proof.
  apply (frame_header_body (make_message hello blank));
    [reflexivity | vm_compute; split; discriminate].
Defined.

End CodecCoverage.

(** * Further properties of the session handlers *)

Module HandlerCoverage.
Import CLib CLibFacts ChatMessage ChatMessageFacts ChatServer ChatRoomFacts
  ChatSessionFacts CodecCoverage Samples.

Lemma release_keeps p st s :
  sessions st !! p = Some s ->
  p ∈ participants_ (room_ st) \/ unreferenced s = false ->
  release p st = st.
Proof.
  intros Hs Hkeep. unfold release. rewrite Hs.
  destruct (decide (p ∈ participants_ (room_ st))) as [Hin | Hout];
    [reflexivity |].
  destruct Hkeep as [Hin | ->]; [contradiction | reflexivity].
Qed.

Lemma room_update p f st : room_ (update p f st) = room_ st.
Proof. reflexivity. Qed.

(** The three completion handlers on their error branch: the received
    bytes or the write's progress are recorded, then [leave]. *)
Lemma on_read_header_error p st s bytes :
  sessions st !! p = Some s ->
  on_read_header p true bytes st
  = release p (leave p (update p (fun s => with_socket (async_read NoRead)
                  (with_read_msg (read_into_header bytes) s)) st)).
Proof.
  intros Hs. unfold on_read_header.
  rewrite sessions_update, decide_True, Hs by reflexivity. reflexivity.
Qed.

Lemma on_read_body_error p st s bytes :
  sessions st !! p = Some s ->
  on_read_body p true bytes st
  = release p (leave p (update p (fun s => with_socket (async_read NoRead)
                  (with_read_msg (read_into_body bytes) s)) st)).
Proof.
  intros Hs. unfold on_read_body.
  rewrite sessions_update, decide_True, Hs by reflexivity. reflexivity.
Qed.

Lemma left_session_facts p st0 st :
  room_ st0 = room_ st ->
  (forall q, q <> p -> sessions st0 !! q = sessions st !! q) ->
  let st' := release p (leave p st0) in
  participants_ (room_ st') = participants_ (room_ st) ∖ {[p]} /\
  (p ∉ participants_ (room_ st')) /\
  recent_msgs_ (room_ st') = recent_msgs_ (room_ st) /\
  (forall q, q <> p -> sessions st' !! q = sessions st !! q) /\
  (forall msg, sessions (deliver msg st') !! p = sessions st' !! p).
Proof.
  intros Hroom Hothers st'. subst st'.
  assert (Hout : p ∉ participants_ (room_ (release p (leave p st0)))).
  { rewrite room_release. cbn. rewrite elem_of_difference, elem_of_singleton.
    tauto. }
  split; [rewrite room_release; cbn; rewrite Hroom; reflexivity |].
  split; [exact Hout |].
  split; [rewrite room_release; cbn; rewrite Hroom; reflexivity |].
  split.
  - intros q Hq. rewrite sessions_release by exact Hq. cbn [leave sessions].
    apply Hothers. exact Hq.
  - intros msg. rewrite sessions_deliver, decide_False by exact Hout.
    reflexivity.
Qed.

(** X6.  Departure cleanup: when a header read, a body read or a write
    of a session completes with an error, the session is taken out of
    the participant set; nothing is delivered (the history and all
    other sessions are as before), and later deliveries no longer reach
    the session. *)
Theorem transport_error_deregisters (p : nat) (st st' : state)
    (s : chat_session) (bytes : list ascii) (n : nat) :
  sessions st !! p = Some s ->
  st' = on_read_header p true bytes st \/
  st' = on_read_body p true bytes st \/
  st' = on_write p true n st ->
  participants_ (room_ st') = participants_ (room_ st) ∖ {[p]} /\
  (p ∉ participants_ (room_ st')) /\
  recent_msgs_ (room_ st') = recent_msgs_ (room_ st) /\
  (forall q, q <> p -> sessions st' !! q = sessions st !! q) /\
  (forall msg, sessions (deliver msg st') !! p = sessions st' !! p).
Proof.
  intros Hs [-> | [-> | ->]].
  - rewrite (on_read_header_error p st s bytes Hs).
    apply left_session_facts; [reflexivity |].
    intros q Hq. rewrite sessions_update, decide_False by congruence. reflexivity.
  - rewrite (on_read_body_error p st s bytes Hs).
    apply left_session_facts; [reflexivity |].
    intros q Hq. rewrite sessions_update, decide_False by congruence. reflexivity.
  - unfold on_write. cbn [negb].
    apply left_session_facts; [reflexivity |].
    intros q Hq. rewrite !sessions_update, !decide_False by congruence.
    reflexivity.
Qed.

Lemma transport_error_deregisters_witness :
  1 ∉ participants_ (room_ (on_read_body 1 true [] lobby)).
Proof.
  apply (transport_error_deregisters 1 lobby _ new_session [] 0);
    [reflexivity | right; left; reflexivity].
Defined.

(** The header handler on a header that parses to [v] in range: the
    bytes are stored, the length is set and the body read is started. *)
Lemma on_read_header_accept p st s bytes v :
  sessions st !! p = Some s ->
  List.length bytes = header_length ->
  atoi (strncat [] bytes header_length) = v -> (0 <= v <= 512)%Z ->
  on_read_header p false bytes st
  = update p do_read_body
      (update p (with_read_msg (fun _ =>
                   {| data_ := bytes ++ drop header_length (data_ (read_msg_ s));
                      body_length_ := v |}))
         (update p (fun s => with_socket (async_read NoRead)
                      (with_read_msg (read_into_header bytes) s)) st)).
Proof.
  intros Hs Hlen Hv Hr. unfold on_read_header.
  set (f := fun s => with_socket (async_read NoRead)
                       (with_read_msg (read_into_header bytes) s)).
  rewrite sessions_update, decide_True, Hs by reflexivity.
  cbn [fmap option_fmap option_map f with_socket with_read_msg read_msg_].
  assert (Hdata : data_ (read_into_header bytes (read_msg_ s))
                  = bytes ++ drop header_length (data_ (read_msg_ s))).
  { unfold read_into_header, memcpy. cbn [data_ Nat.add].
    rewrite take_0, take_ge, Hlen by lia. reflexivity. }
  rewrite (decode_header_value (read_into_header bytes (read_msg_ s)) v);
    [| rewrite parsed_header_read by exact Hlen; exact Hv | exact Hr].
  rewrite Hdata.
  eapply release_keeps.
  - rewrite !sessions_update, !decide_True, Hs by reflexivity. reflexivity.
  - right. unfold unreferenced. cbn. apply andb_false_r.
Qed.

(** X7.  A header that parses to a length in [0, 512] keeps the session
    going: the length is stored in [read_msg_], the body read is
    started, and nothing else changes -- the room, the session's queue
    and socket output, and every other session are as before. *)
Theorem valid_header_starts_body_read (p : nat) (st : state)
    (s : chat_session) (bytes : list ascii) :
  sessions st !! p = Some s ->
  List.length bytes = header_length ->
  (0 <= atoi (strncat [] bytes header_length) <= max_body_length)%Z ->
  let st' := on_read_header p false bytes st in
  room_ st' = room_ st /\
  (forall q, q <> p -> sessions st' !! q = sessions st !! q) /\
  exists s', sessions st' !! p = Some s' /\
             read_ (socket_ s') = ReadBody /\
             body_length (read_msg_ s') = atoi (strncat [] bytes header_length) /\
             take header_length (data (read_msg_ s')) = bytes /\
             write_msgs_ s' = write_msgs_ s /\
             writes_ (socket_ s') = writes_ (socket_ s) /\
             sent_ (socket_ s') = sent_ (socket_ s).
Proof.
  intros Hs Hlen Hr st'. subst st'.
  rewrite (on_read_header_accept p st s bytes _ Hs Hlen eq_refl Hr).
  split; [reflexivity |]. split.
  - intros q Hq. rewrite !sessions_update, !decide_False by congruence.
    reflexivity.
  - eexists. split.
    + rewrite !sessions_update, !decide_True, Hs by reflexivity. reflexivity.
    + cbn. repeat split.
      apply take_app_length'. symmetry. exact Hlen.
Qed.

Lemma valid_header_starts_body_read_witness :
  room_ (on_read_header 1 false (String.list_ascii_of_string "   5") lobby)
  = room_ lobby.
Proof.
  apply (valid_header_starts_body_read 1 lobby new_session
           (String.list_ascii_of_string "   5"));
    [reflexivity | reflexivity | vm_compute; split; discriminate].
Defined.

Lemma frame_make_message line msg :
  wf msg -> List.length line <= 512 ->
  frame (make_message line msg)
  = sprintf_4d (Z.of_nat (List.length line)) ++ line.
Proof.
  intros Hwf Hlen. rewrite (make_message_data line msg Hwf Hlen).
  destruct (sprintf_4d_spec (Z.of_nat (List.length line)) ltac:(lia)) as (H4 & _ & _).
  unfold frame, ChatMessage.length, data, header_length. cbn [data_ body_length_].
  rewrite app_assoc. apply take_app_length'. rewrite length_app, H4. lia.
Qed.

Lemma last_trim_recent h msg :
  last (trim_recent (h ++ [msg])) = Some msg.
Proof.
  rewrite trim_recent_drop. unfold max_recent_msgs.
  rewrite length_app. cbn [List.length].
  rewrite drop_app_le by lia. apply last_snoc.
Qed.

(** X8.  Relaying a frame: when a session in the room reads the header
    and then the body of a frame built by [make_message], the message
    handed to the room has the same frame bytes and the same body; it
    becomes the newest history entry and is appended to the queue of
    every session in the room, the reading one included; sessions
    outside the room are not touched. *)
Theorem relay_frame (p : nat) (st : state) (s : chat_session)
    (line : list ascii) (msg0 : chat_message) :
  sessions st !! p = Some s ->
  p ∈ participants_ (room_ st) ->
  wf msg0 -> List.length line <= 512 ->
  let m := make_message line msg0 in
  let st1 := on_read_header p false (take header_length (frame m)) st in
  let st2 := on_read_body p false (drop header_length (frame m)) st1 in
  exists relayed,
    frame relayed = frame m /\ body relayed = line /\
    last (recent_msgs_ (room_ st2)) = Some relayed /\
    participants_ (room_ st2) = participants_ (room_ st) /\
    (forall q sq, q ∈ participants_ (room_ st) -> sessions st !! q = Some sq ->
       exists sq', sessions st2 !! q = Some sq' /\
                   write_msgs_ sq' = write_msgs_ sq ++ [relayed]) /\
    (forall q, q ∉ participants_ (room_ st) ->
       sessions st2 !! q = sessions st !! q).
Proof.
  intros Hs Hp Hwf Hlen m st1 st2.
  set (L := Z.of_nat (List.length line)).
  destruct (sprintf_4d_spec L ltac:(lia)) as (H4 & _ & Hatoi).
  set (hdr := sprintf_4d L) in *.
  assert (Hframe : frame m = hdr ++ line)
    by (apply frame_make_message; assumption).
  assert (Hhead : take header_length (frame m) = hdr)
    by (rewrite Hframe; apply take_app_length'; symmetry; exact H4).
  assert (Htail : drop header_length (frame m) = line)
    by (rewrite Hframe; apply drop_app_length'; symmetry; exact H4).
  set (rest := drop header_length (data_ (read_msg_ s))).
  set (relayed := {| data_ := hdr ++ line ++ drop (header_length + List.length line)
                                               (hdr ++ rest);
                     body_length_ := L |}).
  (* after the header *)
  assert (Hst1 : st1 = update p do_read_body
                   (update p (with_read_msg (fun _ =>
                                {| data_ := hdr ++ rest; body_length_ := L |}))
                      (update p (fun s => with_socket (async_read NoRead)
                                   (with_read_msg (read_into_header hdr) s)) st))).
  { subst st1. rewrite Hhead.
    apply (on_read_header_accept p st s hdr L Hs H4); [| lia].
    unfold strncat, header_length. cbn [app]. rewrite <- H4.
    rewrite <- (app_nil_r hdr) at 1. rewrite strn_chars_all; [exact Hatoi |].
    destruct (sprintf_4d_spec L ltac:(lia)) as (_ & Hnul & _). exact Hnul. }
  assert (Hp1 : exists s1, sessions st1 !! p = Some s1 /\
                  read_msg_ s1 = {| data_ := hdr ++ rest; body_length_ := L |} /\
                  write_msgs_ s1 = write_msgs_ s).
  { eexists. split; [| split].
    - rewrite Hst1, !sessions_update, !decide_True, Hs by reflexivity. reflexivity.
    - reflexivity.
    - reflexivity. }
  assert (Hq1 : forall q, q <> p -> sessions st1 !! q = sessions st !! q).
  { intros q Hq. rewrite Hst1, !sessions_update, !decide_False by congruence.
    reflexivity. }
  assert (Hroom1 : room_ st1 = room_ st) by (rewrite Hst1; reflexivity).
  destruct Hp1 as (s1 & Hs1 & Hread1 & Hqueue1).
  (* after the body *)
  set (g := fun s => with_socket (async_read NoRead)
                       (with_read_msg (read_into_body line) s)).
  assert (Hrelayed : read_msg_ (g s1) = relayed).
  { unfold g. cbn [with_socket with_read_msg read_msg_]. rewrite Hread1.
    unfold read_into_body, memcpy, relayed. cbn [data_ body_length_].
    rewrite (take_app_length' hdr) by (symmetry; exact H4).
    rewrite take_ge by lia. reflexivity. }
  set (st2' := update p do_read_header (deliver relayed (update p g st1))).
  assert (Hst2 : st2 = st2').
  { subst st2 st2'. rewrite Htail. unfold on_read_body. fold g.
    rewrite sessions_update, decide_True, Hs1 by reflexivity.
    cbn [fmap option_fmap option_map negb]. rewrite Hrelayed.
    eapply release_keeps.
    - rewrite sessions_update, decide_True by reflexivity.
      rewrite sessions_deliver, decide_True by (cbn; rewrite Hroom1; exact Hp).
      rewrite sessions_update, decide_True, Hs1 by reflexivity. reflexivity.
    - left. cbn. rewrite Hroom1. exact Hp. }
  exists relayed. rewrite Hst2. subst st2'.
  split; [| split; [| split; [| split; [| split]]]].
  - rewrite Hframe. unfold frame, ChatMessage.length, data, relayed, header_length.
    cbn [data_ body_length_]. rewrite app_assoc.
    apply take_app_length'. rewrite length_app, H4. lia.
  - apply body_framed. exact H4.
  - cbn [update room_ deliver recent_msgs_]. apply last_trim_recent.
  - cbn. rewrite Hroom1. reflexivity.
  - intros q sq Hq Hsq.
    destruct (decide (q = p)) as [-> | Hne].
    + exists (do_read_header (session_deliver relayed (g s1))). split.
      * rewrite sessions_update, decide_True by reflexivity.
        rewrite sessions_deliver, decide_True by (cbn; rewrite Hroom1; exact Hp).
        rewrite sessions_update, decide_True, Hs1 by reflexivity. reflexivity.
      * rewrite Hs in Hsq. injection Hsq as <-.
        unfold do_read_header. cbn [with_socket write_msgs_].
        rewrite write_msgs_session_deliver. cbn. rewrite Hqueue1. reflexivity.
    + exists (session_deliver relayed sq). split.
      * rewrite sessions_update, decide_False by congruence.
        rewrite sessions_deliver, decide_True by (cbn; rewrite Hroom1; exact Hq).
        rewrite sessions_update, decide_False, Hq1, Hsq by congruence.
        reflexivity.
      * apply write_msgs_session_deliver.
  - intros q Hq.
    assert (Hne : q <> p) by (intros ->; contradiction).
    rewrite sessions_update, decide_False by congruence.
    rewrite sessions_deliver, decide_False by (cbn; rewrite Hroom1; exact Hq).
    rewrite sessions_update, decide_False by congruence.
    apply Hq1. exact Hne.
Qed.

Lemma relay_frame_witness :
  exists relayed,
    frame relayed = frame (make_message hello blank) /\ body relayed = hello.
Proof.
  destruct (relay_frame 1 lobby new_session hello blank) as (relayed & Hf & Hb & _).
  - reflexivity.
  - cbn. apply elem_of_singleton. reflexivity.
  - reflexivity.
  - cbn. lia.
  - exists relayed. split; [exact Hf | exact Hb].
Defined.

Lemma replay_socket_busy msgs :
  forall s, write_msgs_ s <> [] ->
            socket_ (foldl (fun s msg => session_deliver msg s) s msgs)
            = socket_ s.
Proof.
  induction msgs as [| msg msgs IH]; intros s Hne; [reflexivity |].
  cbn [foldl]. rewrite IH.
  - unfold session_deliver. destruct (write_msgs_ s); [congruence | reflexivity].
  - rewrite write_msgs_session_deliver. destruct (write_msgs_ s); discriminate.
Qed.

Lemma read_msg_session_deliver msg s :
  read_msg_ (session_deliver msg s) = read_msg_ s.
Proof.
  unfold session_deliver, do_write.
  destruct (write_msgs_ s) as [| front queue] eqn:Hq; cbn; rewrite ?Hq;
    reflexivity.
Qed.

Lemma read_msg_replay msgs :
  forall s, read_msg_ (foldl (fun s msg => session_deliver msg s) s msgs)
            = read_msg_ s.
Proof.
  induction msgs as [| msg msgs IH]; intros s; [reflexivity |].
  cbn [foldl]. rewrite IH. apply read_msg_session_deliver.
Qed.

(** X16.  Accepting a connection: the new session is put in the room,
    the stored history is queued for it in order and the write of the
    oldest entry is started at once (no write when the history is
    empty), nothing has been sent yet, and the session waits for its
    first header; the history and all other sessions are unchanged. *)
Theorem accept_starts_session (p : nat) (buf : list ascii) (st : state) :
  let st' := on_accept p buf st in
  participants_ (room_ st') = {[p]} ∪ participants_ (room_ st) /\
  recent_msgs_ (room_ st') = recent_msgs_ (room_ st) /\
  (forall q, q <> p -> sessions st' !! q = sessions st !! q) /\
  exists s', sessions st' !! p = Some s' /\
             write_msgs_ s' = recent_msgs_ (room_ st) /\
             writes_ (socket_ s')
             = match recent_msgs_ (room_ st) with
               | [] => []
               | oldest :: _ => [frame oldest]
               end /\
             sent_ (socket_ s') = [] /\
             read_ (socket_ s') = ReadHeader /\
             read_msg_ s' = {| data_ := buf; body_length_ := 0 |}.
Proof.
  intros st'. subst st'. unfold on_accept, start.
  set (new := {| socket_ := {| sent_ := []; writes_ := []; read_ := NoRead |};
                 read_msg_ := {| data_ := buf; body_length_ := 0 |};
                 write_msgs_ := [] |}).
  split; [reflexivity |]. split; [reflexivity |]. split.
  - intros q Hq. rewrite sessions_update, decide_False by congruence.
    rewrite sessions_join, decide_False by congruence.
    cbn [sessions]. apply lookup_insert_ne. congruence.
  - eexists. split.
    + rewrite sessions_update, decide_True by reflexivity.
      rewrite sessions_join, decide_True by reflexivity.
      cbn [sessions]. rewrite lookup_insert_eq. reflexivity.
    + cbn [room_ recent_msgs_]. unfold do_read_header.
      cbn [with_socket write_msgs_ socket_ read_msg_ async_read writes_ sent_ read_].
      split; [apply write_msgs_replay |].
      destruct (recent_msgs_ (room_ st)) as [| oldest later]; [repeat split |].
      cbn [foldl]. rewrite replay_socket_busy by (cbn; discriminate).
      rewrite read_msg_replay. repeat split.
Qed.

(** X17.  A session that has left the room but still reads (its write
    failed, its read did not) keeps relaying: a body it reads is stored
    in the history and queued for every session in the room, while its
    own queue no longer receives anything; it goes on to read the next
    header and stays outside the room. *)
Theorem departed_session_still_relays (p : nat) (st : state)
    (s : chat_session) (bytes : list ascii) :
  sessions st !! p = Some s ->
  (p ∉ participants_ (room_ st)) ->
  let msg := read_into_body bytes (read_msg_ s) in
  let st' := on_read_body p false bytes st in
  last (recent_msgs_ (room_ st')) = Some msg /\
  participants_ (room_ st') = participants_ (room_ st) /\
  (forall q sq, q ∈ participants_ (room_ st) -> sessions st !! q = Some sq ->
     exists sq', sessions st' !! q = Some sq' /\
                 write_msgs_ sq' = write_msgs_ sq ++ [msg]) /\
  exists s', sessions st' !! p = Some s' /\
             write_msgs_ s' = write_msgs_ s /\
             read_ (socket_ s') = ReadHeader.
Proof.
  intros Hs Hout msg st'.
  set (f := fun s => with_socket (async_read NoRead)
                       (with_read_msg (read_into_body bytes) s)).
  set (st2 := update p do_read_header (deliver msg (update p f st))).
  assert (Hp2 : sessions st2 !! p = Some (do_read_header (f s))).
  { subst st2. rewrite sessions_update, decide_True by reflexivity.
    rewrite sessions_deliver, decide_False by exact Hout.
    rewrite sessions_update, decide_True, Hs by reflexivity. reflexivity. }
  assert (Hst' : st' = st2).
  { subst st' st2. unfold on_read_body. fold f.
    rewrite sessions_update, decide_True, Hs by reflexivity.
    cbn [fmap option_fmap option_map negb].
    change (read_msg_ (f s)) with msg.
    eapply release_keeps; [exact Hp2 |].
    right. unfold unreferenced. cbn. apply andb_false_r. }
  rewrite Hst'. split; [| split; [| split]].
  - subst st2. cbn [update room_ deliver recent_msgs_]. apply last_trim_recent.
  - reflexivity.
  - intros q sq Hq Hsq.
    assert (Hne : q <> p) by (intros ->; contradiction).
    exists (session_deliver msg sq). split; [| apply write_msgs_session_deliver].
    subst st2. rewrite sessions_update, decide_False by congruence.
    rewrite sessions_deliver, decide_True by exact Hq.
    rewrite sessions_update, decide_False, Hsq by congruence. reflexivity.
  - eexists. split; [exact Hp2 |]. split; reflexivity.
Qed.

Lemma departed_session_still_relays_witness :
  exists sq', sessions (on_read_body 2 false hello lobby) !! 1 = Some sq' /\
              write_msgs_ sq'
              = write_msgs_ new_session
                  ++ [read_into_body hello (read_msg_ new_session)].
Proof.
  destruct (departed_session_still_relays 2 lobby new_session hello)
    as (_ & _ & Hmembers & _).
  - reflexivity.
  - cbn. rewrite elem_of_singleton. discriminate.
  - apply (Hmembers 1 new_session); [cbn; apply elem_of_singleton |]; reflexivity.
Defined.

End HandlerCoverage.

(** * Further properties of the write side *)

Module WriteSideCoverage.
Import ChatMessage ChatServer ChatRoomFacts WriteSideFacts Samples.

(** X9.  A failed write ends the session's output: once a write has
    completed with an error, no write is outstanding although the queue
    is not empty, and the only thing that can still happen to the write
    side is another [deliver], which lengthens the queue without
    starting a write or sending a byte. *)
Theorem failed_write_stops_output (s0 s : chat_session)
    (evs : list write_event) :
  fresh s0 -> write_run s0 evs s -> failed evs = true ->
  writes_ (socket_ s) = [] /\
  write_msgs_ s <> [] /\
  forall e s', write_step s e s' ->
    exists msg, e = Enqueue msg /\
                write_msgs_ s' = write_msgs_ s ++ [msg] /\
                writes_ (socket_ s') = [] /\
                sent_ (socket_ s') = sent_ (socket_ s).
Proof.
  intros Hfresh Hrun Hfailed.
  destruct (write_inv_run s0 evs s Hfresh Hrun)
    as [done _ Hok _ _ _ _ | done front queue _ Hok _ _ _ _
       | done front queue n _ _ Hq Hw _]; [congruence | congruence |].
  split; [exact Hw |]. split; [rewrite Hq; discriminate |].
  intros e s' Hstep.
  destruct Hstep as [s msg | s ec k buf rest Hbuf]; [| congruence].
  exists msg. split; [reflexivity |].
  unfold session_deliver. rewrite Hq. cbn. rewrite Hw, Hq. repeat split.
Qed.

Lemma failed_write_stops_output_witness :
  writes_ (socket_ (write_handler true (with_socket (complete_write true 2)
                      (session_deliver (msg_of "one") new_session)))) = [].
Proof.
  apply (failed_write_stops_output new_session _
           [Enqueue (msg_of "one"); Completed true 2]).
  - repeat split.
  - apply write_exec_run. reflexivity.
  - reflexivity.
Defined.

End WriteSideCoverage.

(** * Invariants of the running server *)

Module ServerInvariant.
Import CLib CLibFacts ChatMessage ChatMessageFacts ChatServer ChatRoomFacts
  ChatSessionFacts HandlerCoverage ServerSystem Samples ServerSamples.

(** ** Messages stay well formed *)

Lemma msg_ok_read_into_header bytes m :
  List.length bytes <= header_length ->
  msg_ok m -> msg_ok (read_into_header bytes m).
Proof.
  intros Hlen [Hwf Hr]. split; [| exact Hr].
  unfold wf, read_into_header in *. cbn [data_].
  rewrite length_memcpy; [exact Hwf | | lia].
  rewrite Hwf. unfold header_length in *. lia.
Qed.

Lemma msg_ok_read_into_body bytes m :
  (Z.of_nat (List.length bytes) <= body_length m)%Z ->
  msg_ok m -> msg_ok (read_into_body bytes m).
Proof.
  intros Hlen [Hwf Hr]. split; [| exact Hr].
  unfold wf, read_into_body, body_length in *. cbn [data_].
  rewrite length_memcpy; [exact Hwf | | lia].
  rewrite Hwf. unfold header_length, max_body_length in *. lia.
Qed.

Lemma msg_ok_decode_header m :
  wf m -> msg_ok (snd (decode_header m)).
Proof.
  intros Hwf. unfold decode_header. cbn [body_length_ data_].
  pose proof (to_size_t_range (atoi (strncat [] (data_ m) header_length))) as Hr.
  destruct (Z.gtb_spec (to_size_t (atoi (strncat [] (data_ m) header_length)))
              max_body_length);
    split; try exact Hwf; cbn [snd body_length_]; unfold max_body_length in *; lia.
Qed.

(** ** One session *)

Lemma write_side_ok_iff (m1 m2 : Prop) s :
  (m2 -> m1) -> write_side_ok m1 s -> write_side_ok m2 s.
Proof.
  intros Himp [[Hw Hq] | Hwriting]; [left | right; exact Hwriting].
  split; [exact Hw | intros H2; apply Hq, Himp, H2].
Qed.

Lemma session_ok_iff (m1 m2 : Prop) s :
  (m2 -> m1) -> session_ok m1 s -> session_ok m2 s.
Proof.
  intros Himp (Hread & Hqueue & Hws).
  split; [exact Hread | split; [exact Hqueue |]].
  eapply write_side_ok_iff; eassumption.
Qed.

Lemma session_deliver_ok (member : Prop) msg s :
  msg_ok msg -> session_ok member s -> session_ok member (session_deliver msg s).
Proof.
  intros Hmsg (Hread & Hqueue & Hws).
  assert (Hqueue' : Forall msg_ok (write_msgs_ s ++ [msg]))
    by (apply Forall_app; split; [exact Hqueue | constructor; [exact Hmsg | constructor]]).
  unfold session_deliver.
  destruct Hws as [[Hw Hempty] | (front & queue & Hq & Hw)].
  - destruct (write_msgs_ s) as [| front queue] eqn:Hq; cbn [is_empty negb].
    + (* the queue was empty: a write of the new message is started *)
      unfold do_write, with_write_msgs. cbn [write_msgs_]. rewrite Hq. cbn [app].
      split; [exact Hread | split; [exact Hqueue' |]].
      right. exists msg, []. cbn. rewrite Hw. split; reflexivity.
    + (* a queue no write drains: only possible outside the room *)
      unfold with_write_msgs.
      split; [exact Hread | split; [cbn; rewrite Hq; exact Hqueue' |]].
      left. cbn. split; [exact Hw |].
      intros Hm. specialize (Hempty Hm). discriminate.
  - rewrite Hq in *. cbn [is_empty negb]. unfold with_write_msgs.
    split; [exact Hread | split; [cbn; rewrite Hq; exact Hqueue' |]].
    right. exists front, (queue ++ [msg]). cbn. rewrite Hq.
    split; [reflexivity | exact Hw].
Qed.

Lemma unreferenced_session_deliver msg s :
  unreferenced s = false -> unreferenced (session_deliver msg s) = false.
Proof.
  unfold unreferenced, session_deliver.
  destruct (write_msgs_ s) as [| front queue] eqn:Hq; cbn [is_empty negb];
    [| intros H; exact H].
  unfold do_write, with_write_msgs. cbn [write_msgs_]. rewrite Hq. cbn.
  intros _. destruct (writes_ (socket_ s)); reflexivity.
Qed.

Lemma replay_ok (member : Prop) msgs :
  forall s, Forall msg_ok msgs -> session_ok member s ->
            session_ok member (foldl (fun s msg => session_deliver msg s) s msgs).
Proof.
  induction msgs as [| msg msgs IH]; intros s Hmsgs Hs; [exact Hs |].
  cbn [foldl]. apply Forall_cons in Hmsgs as [Hmsg Hmsgs].
  apply IH; [exact Hmsgs |]. apply session_deliver_ok; assumption.
Qed.

(** The write's completion: by the invariant the write was that of the
    front of the queue.  Without an error the queue is popped and the
    next write started; with one the session is left with a queue that
    is not drained, which is fine only outside the room. *)
Lemma write_done_ok (member : Prop) (ec : bool) n s buf rest :
  writes_ (socket_ s) = buf :: rest ->
  session_ok member s ->
  session_ok (if ec then False else member)
    (write_handler ec (with_socket (complete_write ec n) s)).
Proof.
  intros Hbuf (Hread & Hqueue & Hws).
  destruct Hws as [[Hw _] | (front & queue & Hq & Hw)]; [congruence |].
  pose proof Hqueue as Hqueue0. rewrite Hq in Hqueue.
  apply Forall_cons in Hqueue as [Hfront Hrest].
  unfold write_handler, with_socket, complete_write. rewrite Hw.
  destruct ec; cbn [negb].
  - split; [exact Hread | split; [exact Hqueue0 |]].
    left. split; [reflexivity | intros []].
  - unfold with_write_msgs, pop_front. cbn [write_msgs_]. rewrite Hq. cbn [tl].
    destruct queue as [| next queue]; cbn [is_empty negb].
    + split; [exact Hread | split; [constructor |]].
      left. split; reflexivity.
    + unfold do_write. cbn [write_msgs_].
      split; [exact Hread | split; [exact Hrest |]].
      right. exists next, queue. split; reflexivity.
Qed.

Lemma session_ok_async_read (member : Prop) op s :
  session_ok member s -> session_ok member (with_socket (async_read op) s).
Proof. intros (Hread & Hqueue & Hws). split; [| split]; assumption. Qed.

Lemma session_ok_with_read_msg (member : Prop) f s :
  msg_ok (f (read_msg_ s)) ->
  session_ok member s -> session_ok member (with_read_msg f s).
Proof. intros Hf (_ & Hqueue & Hws). split; [| split]; assumption. Qed.

(** ** The whole server *)

Lemma update_update p f g st :
  update p g (update p f st) = update p (fun s => g (f s)) st.
Proof.
  unfold update. cbn [room_ sessions]. f_equal.
  apply map_eq. intros q. rewrite !lookup_alter.
  destruct (decide (p = q)) as [-> |]; [| reflexivity].
  rewrite ?decide_True by reflexivity. destruct (sessions st !! q); reflexivity.
Qed.

Lemma inv_busy p st : server_inv st -> server_inv_but (Some p) st.
Proof.
  intros (Hlen & Hmsgs & Halive & Hsess).
  split; [exact Hlen | split; [exact Hmsgs | split; [exact Halive |]]].
  intros q s Hq. destruct (Hsess q s Hq) as [Hok Href].
  split; [exact Hok |]. intros _. apply Href. discriminate.
Qed.

Lemma inv_update p f st :
  server_inv_but (Some p) st ->
  (forall s, sessions st !! p = Some s ->
             session_ok (p ∈ participants_ (room_ st)) s ->
             session_ok (p ∈ participants_ (room_ st)) (f s)) ->
  server_inv_but (Some p) (update p f st).
Proof.
  intros (Hlen & Hmsgs & Halive & Hsess) Hf.
  split; [exact Hlen | split; [exact Hmsgs | split]].
  - intros q Hq. rewrite sessions_update.
    destruct (Halive q Hq) as [s Hs]. rewrite Hs.
    destruct (decide (p = q)); eexists; reflexivity.
  - intros q s'. rewrite sessions_update. cbn [update room_].
    destruct (decide (p = q)) as [<- | Hne].
    + destruct (sessions st !! p) as [s |] eqn:Hs; [| discriminate].
      intros [= <-]. split; [| congruence].
      apply Hf; [reflexivity |]. apply (Hsess p s Hs).
    + apply Hsess.
Qed.

Lemma inv_update_leave p f st :
  server_inv_but (Some p) st ->
  (forall s, sessions st !! p = Some s ->
             session_ok (p ∈ participants_ (room_ st)) s ->
             session_ok False (f s)) ->
  server_inv_but (Some p) (leave p (update p f st)).
Proof.
  intros (Hlen & Hmsgs & Halive & Hsess) Hf.
  split; [exact Hlen | split; [exact Hmsgs | split]].
  - intros q Hq. cbn in Hq. apply elem_of_difference in Hq as [Hq _].
    cbn [leave sessions]. rewrite sessions_update.
    destruct (Halive q Hq) as [s Hs]. rewrite Hs.
    destruct (decide (p = q)); eexists; reflexivity.
  - intros q s'. cbn [leave sessions room_ participants_].
    rewrite sessions_update, room_update.
    destruct (decide (p = q)) as [<- | Hne].
    + destruct (sessions st !! p) as [s |] eqn:Hs; [| discriminate].
      intros [= <-]. split; [| congruence].
      apply (session_ok_iff False).
      * rewrite elem_of_difference, elem_of_singleton. tauto.
      * apply Hf; [reflexivity |]. apply (Hsess p s Hs).
    + intros Hq. destruct (Hsess q s' Hq) as [Hok Href]. split.
      * apply (session_ok_iff (q ∈ participants_ (room_ st))); [| exact Hok].
        rewrite elem_of_difference. tauto.
      * intros Hbusy Hout. apply Href; [exact Hbusy |].
        intros Hin. apply Hout. rewrite elem_of_difference, elem_of_singleton.
        split; [exact Hin | congruence].
Qed.

Lemma inv_deliver busy msg st :
  msg_ok msg -> server_inv_but busy st -> server_inv_but busy (deliver msg st).
Proof.
  intros Hmsg (Hlen & Hmsgs & Halive & Hsess).
  split; [| split; [| split]].
  - rewrite recent_deliver, trim_recent_drop, length_drop. lia.
  - rewrite recent_deliver, trim_recent_drop. apply Forall_drop, Forall_app.
    split; [exact Hmsgs | constructor; [exact Hmsg | constructor]].
  - intros q Hq. rewrite participants_deliver in Hq.
    rewrite sessions_deliver, decide_True by exact Hq.
    destruct (Halive q Hq) as [s Hs]. rewrite Hs. eexists; reflexivity.
  - intros q s'. rewrite sessions_deliver, participants_deliver.
    destruct (decide (q ∈ participants_ (room_ st))) as [Hin | Hout].
    + destruct (sessions st !! q) as [s |] eqn:Hs; [| discriminate].
      intros [= <-]. split; [| intros _ Hno; contradiction].
      apply session_deliver_ok; [exact Hmsg |]. apply (Hsess q s Hs).
    + apply Hsess.
Qed.

Lemma inv_release p st :
  server_inv_but (Some p) st -> server_inv (release p st).
Proof.
  intros (Hlen & Hmsgs & Halive & Hsess). unfold release.
  assert (Hkeep : (forall s, sessions st !! p = Some s ->
                     (p ∉ participants_ (room_ st)) -> unreferenced s = false) ->
                  server_inv st).
  { intros Hp. split; [exact Hlen | split; [exact Hmsgs | split; [exact Halive |]]].
    intros q s Hq. destruct (Hsess q s Hq) as [Hok Href]. split; [exact Hok |].
    intros _ Hout. destruct (decide (q = p)) as [-> | Hne].
    - apply Hp; assumption.
    - apply Href; [congruence | exact Hout]. }
  destruct (sessions st !! p) as [s |] eqn:Hs;
    [| apply Hkeep; intros s' Hs'; discriminate].
  destruct (decide (p ∈ participants_ (room_ st))) as [Hin | Hout];
    [apply Hkeep; intros s' _ Hno; contradiction |].
  destruct (unreferenced s) eqn:Hun;
    [| apply Hkeep; intros s' [= <-] _; exact Hun].
  split; [exact Hlen | split; [exact Hmsgs | split]]; cbn [room_ sessions].
  - intros q Hq. rewrite lookup_delete_ne by (intros ->; contradiction).
    apply Halive, Hq.
  - intros q s'. destruct (decide (p = q)) as [<- | Hne].
    + rewrite lookup_delete_eq. discriminate.
    + rewrite lookup_delete_ne by exact Hne. intros Hq.
      destruct (Hsess q s' Hq) as [Hok Href]. split; [exact Hok |].
      intros _. apply Href. congruence.
Qed.

Lemma inv_accept p buf st :
  server_inv st ->
  sessions st !! p = None ->
  List.length buf = header_length + Z.to_nat max_body_length ->
  server_inv (on_accept p buf st).
Proof.
  intros (Hlen & Hmsgs & Halive & Hsess) Hfresh Hbuf.
  assert (Hout : p ∉ participants_ (room_ st)).
  { intros Hin. destruct (Halive p Hin) as [s Hs]. congruence. }
  set (new := {| socket_ := {| sent_ := []; writes_ := []; read_ := NoRead |};
                 read_msg_ := {| data_ := buf; body_length_ := 0 |};
                 write_msgs_ := [] |}).
  assert (Hnew : session_ok True new).
  { split; [| split].
    - split; [exact Hbuf | cbn; unfold max_body_length; lia].
    - constructor.
    - left. split; reflexivity. }
  assert (Hlookup : forall q,
            sessions (on_accept p buf st) !! q
            = if decide (p = q)
              then Some (do_read_header
                           (foldl (fun s msg => session_deliver msg s) new
                              (recent_msgs_ (room_ st))))
              else sessions st !! q).
  { intros q. unfold on_accept, start. fold new.
    rewrite sessions_update, sessions_join. cbn [sessions room_].
    destruct (decide (p = q)) as [<- | Hne].
    - rewrite lookup_insert_eq. reflexivity.
    - rewrite lookup_insert_ne by exact Hne. reflexivity. }
  split; [exact Hlen | split; [exact Hmsgs | split]].
  - intros q Hq. rewrite Hlookup.
    destruct (decide (p = q)); [eexists; reflexivity |].
    apply Halive. cbn in Hq. apply elem_of_union in Hq as [Hq | Hq]; [| exact Hq].
    apply elem_of_singleton in Hq. congruence.
  - intros q s'. rewrite Hlookup.
    change (participants_ (room_ (on_accept p buf st)))
      with ({[p]} ∪ participants_ (room_ st)).
    destruct (decide (p = q)) as [<- | Hne].
    + intros [= <-]. split.
      * apply (session_ok_iff True); [tauto |].
        apply session_ok_async_read, replay_ok; assumption.
      * intros _ Hno. exfalso. apply Hno, elem_of_union_l, elem_of_singleton.
        reflexivity.
    + intros Hq. destruct (Hsess q s' Hq) as [Hok Href]. split.
      * apply (session_ok_iff (q ∈ participants_ (room_ st))); [| exact Hok].
        rewrite elem_of_union, elem_of_singleton. intros [-> | Hin]; [congruence | exact Hin].
      * intros Hbusy Hno. apply Href; [exact Hbusy |].
        intros Hin. apply Hno, elem_of_union_r, Hin.
Qed.

Lemma inv_step st e st' :
  server_step st e st' -> server_inv st -> server_inv st'.
Proof.
  intros Hstep Hinv.
  destruct Hstep as [st p buf Hfresh Hbuf
                    | st p s ec bytes Hs Hrd Hle Hall
                    | st p s ec bytes Hs Hrd Hle Hall
                    | st p s ec n buf rest Hs Hw].
  - apply inv_accept; assumption.
  - (* header read *)
    pose proof (inv_busy p st Hinv) as Hbusy.
    set (f := fun s => with_socket (async_read NoRead)
                         (with_read_msg (read_into_header bytes) s)).
    assert (Hf : forall (member : Prop) s0,
               session_ok member s0 -> session_ok member (f s0)).
    { intros member s0 Hok. apply session_ok_async_read.
      apply session_ok_with_read_msg; [| exact Hok].
      apply msg_ok_read_into_header; [exact Hle | apply Hok]. }
    unfold on_read_header. fold f.
    rewrite sessions_update, decide_True, Hs by reflexivity.
    cbn [fmap option_fmap option_map].
    apply inv_release. destruct ec.
    + apply inv_update_leave; [exact Hbusy |].
      intros s0 _ Hok. apply (session_ok_iff _ False) in Hok; [| tauto].
      apply Hf, Hok.
    + destruct (decode_header (read_msg_ (f s))) as [ok m] eqn:Hdec.
      assert (Hm : msg_ok m).
      { change m with (snd (ok, m)). rewrite <- Hdec.
        apply msg_ok_decode_header.
        destruct (proj2 Hinv) as (_ & _ & Hsess).
        destruct (Hsess p s Hs) as [Hok _].
        destruct (Hf _ s Hok) as ([Hwf _] & _). exact Hwf. }
      assert (Hset : forall (member : Prop) s0,
                 session_ok member s0 ->
                 session_ok member (with_read_msg (fun _ => m) s0)).
      { intros member s0. apply session_ok_with_read_msg. exact Hm. }
      destruct ok.
      * apply inv_update; [| intros s0 _; apply session_ok_async_read].
        apply inv_update; [| intros s0 _; apply Hset].
        apply inv_update; [exact Hbusy | intros s0 _; apply Hf].
      * apply inv_update_leave.
        -- apply inv_update; [exact Hbusy | intros s0 _; apply Hf].
        -- intros s0 _ Hok. apply Hset.
           apply (session_ok_iff _ False) in Hok; [exact Hok | tauto].
  - (* body read *)
    pose proof (inv_busy p st Hinv) as Hbusy.
    destruct (proj2 Hinv) as (_ & _ & Hsess).
    destruct (Hsess p s Hs) as [Hok0 _].
    set (f := fun s => with_socket (async_read NoRead)
                         (with_read_msg (read_into_body bytes) s)).
    assert (Hf : forall (member : Prop), session_ok member s -> session_ok member (f s)).
    { intros member Hok. apply session_ok_async_read.
      apply session_ok_with_read_msg; [| exact Hok].
      apply msg_ok_read_into_body; [exact Hle | apply Hok]. }
    unfold on_read_body. fold f.
    rewrite sessions_update, decide_True, Hs by reflexivity.
    cbn [fmap option_fmap option_map].
    apply inv_release. destruct ec; cbn [negb].
    + apply inv_update_leave; [exact Hbusy |].
      intros s0 Hs0 Hok. rewrite Hs in Hs0. injection Hs0 as <-.
      apply Hf. apply (session_ok_iff _ False) in Hok; [exact Hok | tauto].
    + apply inv_update; [| intros s0 _; apply session_ok_async_read].
      apply inv_deliver; [apply (Hf _ Hok0) |].
      apply inv_update; [exact Hbusy |].
      intros s0 Hs0 Hok. rewrite Hs in Hs0. injection Hs0 as <-. apply Hf, Hok.
  - (* write *)
    pose proof (inv_busy p st Hinv) as Hbusy.
    unfold on_write. rewrite update_update. apply inv_release.
    destruct ec; cbn [negb].
    + apply inv_update_leave; [exact Hbusy |].
      intros s0 Hs0 Hok. rewrite Hs in Hs0. injection Hs0 as <-.
      apply (write_done_ok _ true n s buf rest Hw Hok).
    + apply inv_update; [exact Hbusy |].
      intros s0 Hs0 Hok. rewrite Hs in Hs0. injection Hs0 as <-.
      apply (write_done_ok _ false n s buf rest Hw Hok).
Qed.

Lemma inv_initial : server_inv initial.
Proof.
  split; [cbn; unfold max_recent_msgs; lia | split; [constructor | split]].
  - intros p Hp. cbn in Hp. apply not_elem_of_empty in Hp. contradiction.
  - intros p s Hs. cbn in Hs. rewrite lookup_empty in Hs. discriminate.
Qed.

(** Every state the server reaches satisfies the invariant. *)
Lemma inv_reachable st : reachable st -> server_inv st.
Proof.
  induction 1 as [| st e st' _ IH Hstep]; [apply inv_initial |].
  eapply inv_step; eassumption.
Qed.

Lemma one_echo_reachable : reachable one_echo.
Proof.
  unfold one_echo.
  eapply reach_step; [eapply reach_step; [eapply reach_step; [apply reach_init |] |] |].
  - apply (step_accept initial 1 (repeat "."%char 516)); reflexivity.
  - eapply (step_header _ 1 _ false header5);
      [vm_compute; reflexivity | reflexivity | vm_compute; lia | reflexivity].
  - eapply (step_body _ 1 _ false hello);
      [vm_compute; reflexivity | reflexivity | vm_compute; discriminate
      | reflexivity].
Qed.

(** X10.  Sessions are alive exactly as long as something refers to
    them: in every state the server reaches, each member of the
    participant set is a live session, and each live session outside
    the set has a read or a write outstanding (a session with neither
    has been destroyed). *)
Theorem reachable_sessions_referenced (st : state) :
  reachable st ->
  (forall p, p ∈ participants_ (room_ st) -> is_Some (sessions st !! p)) /\
  (forall p s, sessions st !! p = Some s ->
     (p ∉ participants_ (room_ st)) -> unreferenced s = false).
Proof.
  intros Hreach. destruct (inv_reachable st Hreach) as (_ & _ & Halive & Hsess).
  split; [exact Halive |].
  intros p s Hs Hout. destruct (Hsess p s Hs) as [_ Href].
  apply Href; [discriminate | exact Hout].
Qed.

Lemma reachable_sessions_referenced_witness :
  is_Some (sessions one_echo !! 1).
Proof.
  apply (reachable_sessions_referenced one_echo one_echo_reachable).
  apply (@bool_decide_unpack _ (elem_of_dec_slow _ _)). vm_compute. exact I.
Defined.

(** X11.  Messages always fit their buffers: in every state the server
    reaches, the history holds at most 100 messages, and every message
    in the history, in a session's queue or being read has a buffer of
    the declared size and a length of at most 512, so that the body
    read [buffer(body(), body_length())] stays inside [data_]. *)
Theorem reachable_messages_fit (st : state) :
  reachable st ->
  List.length (recent_msgs_ (room_ st)) <= max_recent_msgs /\
  Forall msg_ok (recent_msgs_ (room_ st)) /\
  (forall p s, sessions st !! p = Some s ->
     msg_ok (read_msg_ s) /\ Forall msg_ok (write_msgs_ s) /\
     header_length + Z.to_nat (body_length (read_msg_ s))
     <= List.length (data (read_msg_ s))).
Proof.
  intros Hreach. destruct (inv_reachable st Hreach) as (Hlen & Hmsgs & _ & Hsess).
  split; [exact Hlen | split; [exact Hmsgs |]].
  intros p s Hs. destruct (Hsess p s Hs) as [(Hread & Hqueue & _) _].
  split; [exact Hread | split; [exact Hqueue |]].
  destruct Hread as [Hwf Hr]. unfold wf, data, body_length in *.
  rewrite Hwf. unfold max_body_length in *. lia.
Qed.

Lemma reachable_messages_fit_witness :
  Forall msg_ok (recent_msgs_ (room_ one_echo)).
Proof.
  apply (reachable_messages_fit one_echo). exact one_echo_reachable.
Defined.

(** X12.  One write at a time, for every session of the server: in
    every state the server reaches, a session has at most one write
    outstanding, that write is of the front message of its queue, and a
    session in the room whose queue is not empty always has one, so its
    queue is being drained. *)
Theorem reachable_single_write (st : state) (p : nat) (s : chat_session) :
  reachable st -> sessions st !! p = Some s ->
  List.length (writes_ (socket_ s)) <= 1 /\
  (forall buf, buf ∈ writes_ (socket_ s) ->
     exists front queue, write_msgs_ s = front :: queue /\ buf = frame front) /\
  (p ∈ participants_ (room_ st) -> write_msgs_ s <> [] ->
     writes_ (socket_ s) <> []).
Proof.
  intros Hreach Hs. destruct (inv_reachable st Hreach) as (_ & _ & _ & Hsess).
  destruct (Hsess p s Hs) as [(_ & _ & Hws) _].
  destruct Hws as [[Hw Hempty] | (front & queue & Hq & Hw)].
  - rewrite Hw. split; [cbn; lia | split].
    + intros buf Hbuf. apply elem_of_nil in Hbuf. contradiction.
    + intros Hin Hne. exfalso. apply Hne, Hempty, Hin.
  - rewrite Hw. split; [cbn; lia | split].
    + intros buf Hbuf. apply list_elem_of_singleton in Hbuf. subst buf.
      exists front, queue. split; [exact Hq | reflexivity].
    + intros _ _. discriminate.
Qed.

Lemma reachable_single_write_witness :
  exists s, sessions one_echo !! 1 = Some s /\
            List.length (writes_ (socket_ s)) <= 1.
Proof.
  eexists. split; [vm_compute; reflexivity |].
  apply (reachable_single_write one_echo 1 _ one_echo_reachable).
  vm_compute. reflexivity.
Defined.

End ServerInvariant.

(** * The client *)

Module ClientCoverage.
Import CLib CLibFacts ChatMessage ChatMessageFacts CodecCoverage Samples.
Import ChatServer (tcp_socket, sent_, writes_, read_, read_op, NoRead,
  ReadHeader, ReadBody, async_write, async_read, complete_write, is_empty,
  pop_front, write_event, Enqueue, Completed, enqueued, completions, failed).
Import ChatClient.

Lemma client_header_accept c bytes v :
  List.length bytes = header_length ->
  atoi (strncat [] bytes header_length) = v -> (0 <= v <= 512)%Z ->
  on_read_header false bytes c
  = do_read_body
      (with_read_msg (fun _ =>
         {| data_ := bytes ++ drop header_length (data_ (read_msg_ c));
            body_length_ := v |})
         (with_socket (async_read NoRead)
            (with_read_msg (read_into_header bytes) c))).
Proof.
  intros Hlen Hv Hr. unfold on_read_header.
  cbn [with_socket with_read_msg read_msg_].
  assert (Hdata : data_ (read_into_header bytes (read_msg_ c))
                  = bytes ++ drop header_length (data_ (read_msg_ c))).
  { unfold read_into_header, memcpy. cbn [data_ Nat.add].
    rewrite take_0, take_ge, Hlen by lia. reflexivity. }
  rewrite (decode_header_value (read_into_header bytes (read_msg_ c)) v);
    [| rewrite ChatSessionFacts.parsed_header_read by exact Hlen; exact Hv
     | exact Hr].
  rewrite Hdata. reflexivity.
Qed.

(** X13.  The client prints what was sent: when it reads the header and
    then the body of a frame whose bytes are those of a message built by
    [make_message] from a line, it writes that line and a newline to
    [std::cout] and waits for the next header; its socket stays as open
    as it was and its outbound queue is untouched. *)
Theorem client_displays_frame (c : chat_client) (sent : chat_message)
    (line : list ascii) (msg0 : chat_message) :
  wf msg0 -> List.length line <= 512 ->
  frame sent = frame (make_message line msg0) ->
  let c1 := on_read_header false (take header_length (frame sent)) c in
  let c2 := on_read_body false (drop header_length (frame sent)) c1 in
  cout_ c2 = cout_ c ++ line ++ [newline] /\
  read_ (socket_ c2) = ReadHeader /\
  is_open_ c2 = is_open_ c /\
  write_msgs_ c2 = write_msgs_ c /\
  writes_ (socket_ c2) = writes_ (socket_ c).
Proof.
  intros Hwf Hlen Hsent c1 c2.
  set (L := Z.of_nat (List.length line)).
  destruct (sprintf_4d_spec L ltac:(lia)) as (H4 & Hnul & Hatoi).
  assert (Hframe : frame sent = sprintf_4d L ++ line).
  { rewrite Hsent. apply HandlerCoverage.frame_make_message; assumption. }
  set (hdr := sprintf_4d L) in *.
  assert (Hhead : take header_length (frame sent) = hdr)
    by (rewrite Hframe; apply take_app_length'; symmetry; exact H4).
  assert (Htail : drop header_length (frame sent) = line)
    by (rewrite Hframe; apply drop_app_length'; symmetry; exact H4).
  assert (Hc1 : c1 = do_read_body
                  (with_read_msg (fun _ =>
                     {| data_ := hdr ++ drop header_length (data_ (read_msg_ c));
                        body_length_ := L |})
                     (with_socket (async_read NoRead)
                        (with_read_msg (read_into_header hdr) c)))).
  { subst c1. rewrite Hhead. apply client_header_accept; [exact H4 | | lia].
    unfold strncat, header_length. cbn [app]. rewrite <- H4.
    rewrite <- (app_nil_r hdr) at 1. rewrite strn_chars_all; [exact Hatoi | exact Hnul]. }
  subst c2. rewrite Htail, Hc1. unfold on_read_body. cbn.
  repeat split.
  rewrite <- app_assoc. do 2 f_equal.
  unfold read_into_body, memcpy. cbn [data_ body_length_].
  rewrite (take_app_length' hdr) by (symmetry; exact H4).
  rewrite (take_ge line) by lia.
  apply body_framed. exact H4.
Qed.

Lemma client_displays_frame_witness :
  cout_ (on_read_body false
           (drop header_length (frame (make_message hello blank)))
           (on_read_header false
              (take header_length (frame (make_message hello blank)))
              (new_client (repeat "."%char 516))))
  = cout_ (new_client (repeat "."%char 516)) ++ hello ++ [newline].
Proof.
  apply (client_displays_frame (new_client (repeat "."%char 516))
           (make_message hello blank) hello blank);
    [reflexivity | cbn; lia | reflexivity].
Defined.

(** X14.  The client gives up on the first problem: a failed header
    read, a header whose number is not in [0, 512], a failed body read
    or a failed write closes the socket; nothing is printed, the
    outbound queue is kept as it is and no new read or write is
    started. *)
Theorem client_closes_on_error (c c' : chat_client) (bytes : list ascii)
    (n : nat) :
  c' = on_read_header true bytes c \/
  (List.length bytes = header_length /\
   ~ (0 <= atoi (strncat [] bytes header_length) <= max_body_length)%Z /\
   c' = on_read_header false bytes c) \/
  c' = on_read_body true bytes c \/
  c' = on_write true n c ->
  is_open_ c' = false /\
  cout_ c' = cout_ c /\
  write_msgs_ c' = write_msgs_ c /\
  List.length (writes_ (socket_ c')) <= List.length (writes_ (socket_ c)) /\
  (read_ (socket_ c') = NoRead \/ read_ (socket_ c') = read_ (socket_ c)).
Proof.
  intros [-> | [(Hlen & Hbad & ->) | [-> | ->]]].
  - cbn. repeat split; [lia | left; reflexivity].
  - unfold on_read_header. cbn [with_socket with_read_msg read_msg_].
    pose proof (decode_header_true_iff
                  (read_into_header bytes (read_msg_ c))) as Hiff.
    rewrite ChatSessionFacts.parsed_header_read in Hiff by exact Hlen.
    destruct (decode_header (read_into_header bytes (read_msg_ c)))
      as [[|] m]; cbn [fst] in Hiff.
    + exfalso. apply Hbad, Hiff. reflexivity.
    + cbn. repeat split; [lia | left; reflexivity].
  - cbn. repeat split; [lia | left; reflexivity].
  - unfold on_write, complete_write. cbn [negb].
    destruct (writes_ (socket_ c)) as [| buf rest] eqn:Hw; cbn; rewrite ?Hw;
      repeat split; cbn; try lia; right; reflexivity.
Qed.

Lemma client_closes_on_error_witness :
  is_open_ (on_read_header false (String.list_ascii_of_string "0600")
              (new_client (repeat "."%char 516))) = false.
Proof.
  apply (client_closes_on_error (new_client (repeat "."%char 516)) _
           (String.list_ascii_of_string "0600") 0).
  right. left. split; [reflexivity | split; [| reflexivity]].
  vm_compute. intros [_ H]. apply H. reflexivity.
Defined.

(** The client's queue code is that of the server session: on the write
    side the two step alike. *)
Lemma write_side_posted msg c :
  write_side (write_posted msg c)
  = ChatServer.session_deliver msg (write_side c).
Proof.
  unfold write_posted, ChatServer.session_deliver, do_write, ChatServer.do_write.
  cbn [write_side ChatServer.write_msgs_].
  destruct (write_msgs_ c) as [| front queue] eqn:Hq; cbn; rewrite ?Hq;
    reflexivity.
Qed.

Lemma write_side_on_write ec n c :
  write_side (on_write ec n c)
  = ChatServer.write_handler ec
      (ChatServer.with_socket (complete_write ec n) (write_side c)).
Proof.
  unfold on_write, ChatServer.write_handler, do_write, ChatServer.do_write.
  destruct ec; cbn [negb]; [reflexivity |].
  cbn [write_side ChatServer.write_msgs_ ChatServer.with_socket
       ChatServer.with_write_msgs with_write_msgs with_socket write_msgs_].
  destruct (write_msgs_ c) as [| front [| next queue]]; reflexivity.
Qed.

Lemma client_run_simulates c0 evs c :
  client_write_run c0 evs c ->
  ChatServer.write_run (write_side c0) evs (write_side c).
Proof.
  induction 1 as [c | c evs c1 e c2 _ IH Hstep]; [apply ChatServer.run_nil |].
  eapply ChatServer.run_snoc; [exact IH |].
  destruct Hstep as [c1 msg | c1 ec n buf rest Hw].
  - rewrite write_side_posted. apply ChatServer.step_enqueue.
  - rewrite write_side_on_write. eapply ChatServer.step_completed. exact Hw.
Qed.

Lemma write_posted_keeps msg c :
  is_open_ (write_posted msg c) = is_open_ c /\
  cout_ (write_posted msg c) = cout_ c.
Proof.
  unfold write_posted, do_write.
  destruct (write_msgs_ c) as [| front queue] eqn:Hq; cbn; rewrite ?Hq; cbn;
    split; reflexivity.
Qed.

Lemma on_write_keeps n c :
  is_open_ (on_write false n c) = is_open_ c /\
  cout_ (on_write false n c) = cout_ c.
Proof.
  unfold on_write, do_write. cbn.
  destruct (write_msgs_ c) as [| front [| next queue]]; cbn; split; reflexivity.
Qed.

Lemma client_run_open c0 evs c :
  client_write_run c0 evs c ->
  is_open_ c = is_open_ c0 && negb (failed evs) /\ cout_ c = cout_ c0.
Proof.
  induction 1 as [c | c evs c1 e c2 _ [IHopen IHout] Hstep].
  - cbn. rewrite andb_true_r. split; reflexivity.
  - rewrite WriteSideFacts.failed_snoc.
    destruct Hstep as [c1 msg | c1 ec n buf rest Hw].
    + rewrite orb_false_r.
      destruct (write_posted_keeps msg c1) as [-> ->]. split; assumption.
    + destruct ec.
      * rewrite orb_true_r, andb_false_r. split; [reflexivity |].
        rewrite <- IHout. reflexivity.
      * rewrite orb_false_r.
        destruct (on_write_keeps n c1) as [-> ->]. split; assumption.
Qed.

(** X15.  The client sends in order, one write at a time: whatever the
    interleaving of [write] calls and write completions, at most one
    write is outstanding and the bytes sent are a prefix of the frames
    of the messages written, in the order written; until a write fails
    they are exactly the frames whose writes completed, and the rest is
    queued in order.  The socket is closed exactly when a write has
    failed, and writing prints nothing. *)
Theorem client_write_order (c0 c : chat_client) (evs : list write_event) :
  write_msgs_ c0 = [] -> writes_ (socket_ c0) = [] -> sent_ (socket_ c0) = [] ->
  client_write_run c0 evs c ->
  List.length (writes_ (socket_ c)) <= 1 /\
  sent_ (socket_ c) `prefix_of` concat (map frame (enqueued evs)) /\
  (failed evs = false ->
     sent_ (socket_ c)
     = concat (map frame (take (completions evs) (enqueued evs))) /\
     write_msgs_ c = drop (completions evs) (enqueued evs)) /\
  is_open_ c = is_open_ c0 && negb (failed evs) /\
  cout_ c = cout_ c0.
Proof.
  intros Hq0 Hw0 Hs0 Hrun.
  destruct (client_run_open c0 evs c Hrun) as [Hopen Hout].
  pose proof (client_run_simulates c0 evs c Hrun) as Hsim.
  apply WriteSideFacts.write_inv_run in Hsim; [| repeat split; assumption].
  split; [| split; [| split; [| split; [exact Hopen | exact Hout]]]].
  - destruct Hsim as [done _ _ _ _ Hw _ | done front queue _ _ _ _ Hw _
                     | done front queue n _ _ _ Hw _];
      cbn in Hw; rewrite Hw; cbn; lia.
  - destruct Hsim as [done -> _ _ _ _ Hsent | done front queue -> _ _ _ _ Hsent
                     | done front queue n -> _ _ _ Hsent];
      cbn in Hsent; rewrite Hsent.
    + reflexivity.
    + rewrite map_app, concat_app. apply prefix_app_r. reflexivity.
    + rewrite map_app, concat_app. apply prefix_app.
      cbn [map concat]. apply prefix_app_r, prefix_take.
  - intros Hok.
    destruct Hsim as [done Henq _ Hcnt Hq _ Hsent
                     | done front queue Henq _ Hcnt Hq _ Hsent
                     | done front queue n _ Hbad _ _ _]; [| | congruence];
      cbn in Hq, Hsent; rewrite Hq, Hsent, Hcnt, Henq.
    + rewrite take_ge, drop_ge by lia. split; reflexivity.
    + rewrite take_app_length, drop_app_length. split; reflexivity.
Qed.

Lemma client_write_order_witness :
  sent_ (socket_ (on_write false 0
                    (write_posted (make_message hello blank)
                       (new_client (repeat "."%char 516)))))
    `prefix_of`
  concat (map frame (enqueued (input_events blank [hello] ++ [Completed false 0]))).
Proof.
  apply (client_write_order (new_client (repeat "."%char 516)) _
           (input_events blank [hello] ++ [Completed false 0]));
    [reflexivity | reflexivity | reflexivity |].
  eapply client_run_snoc.
  - apply (client_run_snoc _ [] _ _ _ (client_run_nil _)), client_enqueue.
  - eapply client_completed. vm_compute. reflexivity.
Defined.

End ClientCoverage.
